(** * KCSEC/scrape: the typed key-value store, the dedup cache and the poll cycle

    A shallow embedding of [kvstore.go] (the skv store over BoltDB, extended
    with bucket names) and of the poll loop file ([cleanKeys], [get],
    [scrape]), with the properties of the specification stated over it.

    Go strings and [[]byte] are both byte sequences and are modelled as
    [string]; a Go [error] result is an [option error] ([None] is [nil]); a
    run-time panic is a separate outcome.  Mutation of the store behind the
    [*KVStore] pointer is written as explicit state passing. *)

From Stdlib Require Import ZArith String Ascii List Bool Lia.
From stdpp Require Import base option gmap strings list.

Local Open Scope Z_scope.

(** ** Byte strings and their order *)

Abbreviation bytes := string.

(** [len(s)] *)
Definition len (s : bytes) : Z := Z.of_nat (String.length s).

Module Bytes.

(** [bytes.Compare]: the lexicographic order on byte sequences, which is the
    order in which a bucket keeps its keys. *)
Definition le (s t : bytes) : Prop := String.leb s t = true.
Definition lt (s t : bytes) : Prop := String.ltb s t = true.

Lemma ascii_compare_refl (a : ascii) : Ascii.compare a a = Eq.
Proof. unfold Ascii.compare. apply N.compare_refl. Qed.

Lemma compare_refl (s : bytes) : String.compare s s = Eq.
Proof.
  induction s as [|a s IH]; simpl; [reflexivity|].
  now rewrite ascii_compare_refl.
Qed.

Lemma le_refl (s : bytes) : le s s.
Proof. unfold le, String.leb. now rewrite compare_refl. Qed.

Lemma le_antisym (s t : bytes) : le s t -> le t s -> s = t.
Proof. apply String.leb_antisym. Qed.

Lemma le_total (s t : bytes) : le s t \/ le t s.
Proof. apply String.leb_total. Qed.

Lemma lt_le (s t : bytes) : lt s t -> le s t.
Proof.
  unfold lt, le, String.ltb, String.leb.
  destruct (String.compare s t); congruence.
Qed.

Lemma lt_irrefl (s : bytes) : ~ lt s s.
Proof. unfold lt, String.ltb. rewrite compare_refl. discriminate. Qed.

Lemma not_lt_le (s t : bytes) : String.ltb s t = false -> le t s.
Proof.
  unfold le, String.ltb, String.leb. rewrite (String.compare_antisym t s).
  destruct (String.compare s t); simpl; congruence.
Qed.

Lemma le_not_lt (s t : bytes) : le s t -> String.ltb t s = false.
Proof.
  unfold le, String.ltb, String.leb. rewrite (String.compare_antisym t s).
  destruct (String.compare s t); simpl; congruence.
Qed.

Lemma ascii_compare_lt_trans (a b c : ascii) :
  Ascii.compare a b = Lt -> Ascii.compare b c = Lt -> Ascii.compare a c = Lt.
Proof.
  unfold Ascii.compare. rewrite !N.compare_lt_iff. lia.
Qed.

Lemma compare_lt_trans (s t u : bytes) :
  String.compare s t = Lt -> String.compare t u = Lt -> String.compare s u = Lt.
Proof.
  revert t u. induction s as [|a s IH]; intros [|b t] [|c u]; simpl; try congruence.
  destruct (Ascii.compare a b) eqn:Hab; try discriminate.
  - apply Ascii.compare_eq_iff in Hab. subst b.
    destruct (Ascii.compare a c); try congruence. apply IH.
  - intros _. destruct (Ascii.compare b c) eqn:Hbc; try discriminate.
    + apply Ascii.compare_eq_iff in Hbc. subst c. now rewrite Hab.
    + intros _. now rewrite (ascii_compare_lt_trans a b c).
Qed.

Lemma le_trans (s t u : bytes) : le s t -> le t u -> le s u.
Proof.
  unfold le, String.leb. intros Hst Htu.
  destruct (String.compare s t) eqn:Est; try discriminate.
  - apply String.compare_eq_iff in Est. now subst t.
  - destruct (String.compare t u) eqn:Etu; try discriminate.
    + apply String.compare_eq_iff in Etu. subst u. now rewrite Est.
    + now rewrite (compare_lt_trans s t u).
Qed.

(** A key sorts at or before each of its extensions, so a cursor sent to a
    key may come to rest on a longer key that starts with it. *)
Lemma le_app (s t : bytes) : le s (s ++ t).
Proof.
  unfold le, String.leb. induction s as [|a s IH]; simpl.
  - now destruct t.
  - now rewrite ascii_compare_refl.
Qed.

Lemma app_ne (s : bytes) (c : ascii) (t : bytes) : (s ++ String c t)%string <> s.
Proof.
  induction s as [|a s IH]; simpl; [discriminate|].
  intros H. injection H as H. now apply IH.
Qed.

End Bytes.

(** ** Errors and outcomes *)

Inductive error : Type :=
  | ErrNotFound              (* skv: key not found *)
  | ErrBadValue              (* skv: bad value *)
  | ErrDatabaseNotOpen       (* bolt: database not open *)
  | ErrBucketNameRequired    (* bolt: bucket name required *)
  | ErrKeyRequired           (* bolt: key required *)
  | ErrKeyTooLarge           (* bolt: key too large *)
  | ErrValueTooLarge         (* bolt: value too large *)
  | ErrGob.                  (* an error of the gob decoder *)

(** What a call that returns an [error] does: it returns ([nil] or an error)
    or it panics. *)
Inductive outcome : Type :=
  | Returns (err : option error)
  | Panics.

#[global] Instance error_eq_dec : EqDecision error.
Proof. solve_decision. Defined.

#[global] Instance outcome_eq_dec : EqDecision outcome.
Proof. solve_decision. Defined.

(** ** The value encoding

    [encoding/gob] is imported by [kvstore.go]; the store needs an encoder,
    which may write the bytes of a value, return an error, or panic, and a
    decoder that reads back what the encoder wrote into a destination of
    matching type. *)

(** What [Encode] does with a value. *)
Inductive encoding : Type :=
  | Encoded (buf : bytes)   (* it returns nil, having written [buf] *)
  | EncodeFails             (* it returns an error *)
  | EncodePanics.           (* it panics: a nil pointer in a non-nil interface *)

Class Gob (V : Type) := {
  gob_encode : V -> encoding;
  (* [Decode(&x)] with [x] holding [d]: the new content of [x], or an error,
     which leaves [x] as it was *)
  gob_decode : bytes -> V -> option V;
  (* [Decode(nil)]: the value is read and discarded; [false] is an error *)
  gob_discard : bytes -> bool;
  (* the variable that holds [d] is a destination of matching type for [v] *)
  gob_matches : V -> V -> bool;
  gob_roundtrip : forall v b d,
    gob_encode v = Encoded b -> gob_matches d v = true -> gob_decode b d = Some v;
  gob_discard_encoded : forall v b,
    gob_encode v = Encoded b -> gob_discard b = true
}.

(** ** The storage engine (github.com/boltdb/bolt), as far as the store uses it

    A database is a set of named top-level buckets, each an ordered map from
    keys to values.  The store never creates nested buckets, so a bucket holds
    plain key/value pairs only. *)

Module bolt.

Definition MaxKeySize : Z := 32768.
Definition MaxValueSize : Z := 2 ^ 31 - 2.

Record DB : Type := mkDB {
  opened : bool;
  root : gmap bytes (gmap bytes bytes)
}.

(** A transaction works on its own copy of the buckets. *)
Abbreviation Tx := (gmap bytes (gmap bytes bytes)).

(** [bolt.Open] on a fresh path. *)
Definition Open : DB := mkDB true ∅.

(** [db.Close()] *)
Definition Close (d : DB) : option error * DB := (None, mkDB false (root d)).

(** [db.Update(fn)]: [fn] runs in a read-write transaction, which is
    committed when [fn] returns [nil] and rolled back when it returns an
    error or panics. *)
Definition Update (d : DB) (fn : Tx -> outcome * Tx) : outcome * DB :=
  if opened d then
    match fn (root d) with
    | (Returns None, tx') => (Returns None, mkDB true tx')
    | (r, _) => (r, d)
    end
  else (Returns (Some ErrDatabaseNotOpen), d).

(** [db.View(fn)]: [fn] runs in a read-only transaction; [mem] is the
    caller's memory that the closure may write to. *)
Definition View {A : Type} (d : DB) (fn : Tx -> A -> outcome * A) (mem : A)
  : outcome * A :=
  if opened d then fn (root d) mem
  else (Returns (Some ErrDatabaseNotOpen), mem).

(** [tx.CreateBucketIfNotExists(name)] *)
Definition CreateBucketIfNotExists (tx : Tx) (name : bytes) : option error * Tx :=
  if len name =? 0 then (Some ErrBucketNameRequired, tx)
  else match tx !! name with
       | Some _ => (None, tx)
       | None => (None, <[name := ∅]> tx)
       end.

(** [tx.Bucket(name)]: a handle on the bucket, [nil] when there is no such
    bucket.  The handle is the name of a bucket of the transaction. *)
Definition Bucket (tx : Tx) (name : bytes) : option bytes :=
  match tx !! name with
  | Some _ => Some name
  | None => None
  end.

(** [b.Put(key, value)]; on a [nil] bucket the method dereferences the
    receiver and panics. *)
Definition Put (tx : Tx) (b : option bytes) (key value : bytes) : outcome * Tx :=
  match b with
  | None => (Panics, tx)
  | Some name =>
      if len key =? 0 then (Returns (Some ErrKeyRequired), tx)
      else if len key >? MaxKeySize then (Returns (Some ErrKeyTooLarge), tx)
      else if len value >? MaxValueSize then (Returns (Some ErrValueTooLarge), tx)
      else (Returns None, alter (insert key value) name tx)
  end.

(** A cursor over a bucket, and the key it rests on. *)
Record Cursor : Type := mkCursor {
  c_bucket : bytes;
  c_key : option bytes
}.

(** [b.Cursor()]; on a [nil] bucket the method dereferences the receiver
    and panics ([None]). *)
Definition NewCursor (b : option bytes) : option Cursor :=
  match b with
  | None => None
  | Some name => Some (mkCursor name None)
  end.

(** One step of the search for the first key at or after [target]. *)
Definition seek_step (target : bytes) (kv : bytes * bytes)
    (best : option (bytes * bytes)) : option (bytes * bytes) :=
  if String.leb target kv.1 then
    match best with
    | None => Some kv
    | Some b => if String.ltb kv.1 b.1 then Some kv else best
    end
  else best.

Definition seek_list (target : bytes) (l : list (bytes * bytes))
  : option (bytes * bytes) :=
  foldr (seek_step target) None l.

(** The first entry of a bucket whose key is at or after [target]. *)
Definition first_from (target : bytes) (bk : gmap bytes bytes)
  : option (bytes * bytes) :=
  seek_list target (map_to_list bk).

(** [c.Seek(seek)]: moves the cursor to the first key at or after [seek] and
    returns that key and its value, or a [nil] key (and value) when no key
    follows. *)
Definition Seek (tx : Tx) (c : Cursor) (seek : bytes)
  : (option bytes * option bytes) * Cursor :=
  match first_from seek (default ∅ (tx !! c_bucket c)) with
  | Some (k, v) => ((Some k, Some v), mkCursor (c_bucket c) (Some k))
  | None => ((None, None), mkCursor (c_bucket c) None)
  end.

(** [c.Delete()]: removes the key the cursor rests on. *)
Definition Delete (tx : Tx) (c : Cursor) : option error * Tx :=
  match c_key c with
  | Some k => (None, alter (delete k) (c_bucket c) tx)
  | None => (None, tx)
  end.

End bolt.

(** ** The typed store ([kvstore.go]) *)

(** [type KVStore struct { db *bolt.DB }] *)
Record KVStore : Type := mkKVStore { db : bolt.DB }.

(** [NewKVStore(path)] on a fresh path, with the file lock free. *)
Definition NewKVStore : KVStore := mkKVStore bolt.Open.

(** [k == nil || string(k) != key] *)
Definition nil_or_differs (k : option bytes) (key : string) : bool :=
  match k with
  | None => true
  | Some k' => negb (String.eqb k' key)
  end.

(** [kvs.AddBucket(bucket)] *)
Definition AddBucket (kvs : KVStore) (bucket : string) : outcome * KVStore :=
  let '(err, d) :=
    bolt.Update (db kvs) (fun tx =>
      let '(err, tx') := bolt.CreateBucketIfNotExists tx bucket in
      (Returns err, tx')) in
  match err with
  | Returns (Some e) => (Returns (Some e), mkKVStore d)
  | Returns None => (Returns None, mkKVStore d)
  | Panics => (Panics, mkKVStore d)
  end.

(** [kvs.Delete(bucket, key)] *)
Definition Delete (kvs : KVStore) (bucket key : string) : outcome * KVStore :=
  let '(r, d) :=
    bolt.Update (db kvs) (fun tx =>
      match bolt.NewCursor (bolt.Bucket tx bucket) with
      | None => (Panics, tx)
      | Some c =>
          let '((k, _), c) := bolt.Seek tx c key in
          if nil_or_differs k key then (Returns (Some ErrNotFound), tx)
          else let '(err, tx') := bolt.Delete tx c in (Returns err, tx')
      end) in
  (r, mkKVStore d).

(** [kvs.Close()] *)
Definition Close (kvs : KVStore) : option error * KVStore :=
  let '(err, d) := bolt.Close (db kvs) in (err, mkKVStore d).

Section TypedStore.

Context {V : Type} `{!Gob V}.

(** [gob.NewDecoder(bytes.NewReader(v)).Decode(value)]: [value] is [nil]
    ([None]), and the value is read and discarded, or it points to a variable
    of the caller, whose content is passed in and returned; the decoder
    returns an error, and leaves the variable as it was, when the bytes do not
    fit the type of the variable. *)
Definition Decode (v : bytes) (value : option V) : outcome * option V :=
  match value with
  | None =>
      if gob_discard v then (Returns None, None)
      else (Returns (Some ErrGob), None)
  | Some d =>
      match gob_decode v d with
      | Some x => (Returns None, Some x)
      | None => (Returns (Some ErrGob), Some d)
      end
  end.

(** [kvs.Put(bucket, key, value)]; [value = None] is the [nil] interface. *)
Definition Put (kvs : KVStore) (bucket key : string) (value : option V)
  : outcome * KVStore :=
  match value with
  | None => (Returns (Some ErrBadValue), kvs)
  | Some v =>
      match AddBucket kvs bucket with
      | (Returns None, kvs) =>
          match gob_encode v with
          | EncodePanics => (Panics, kvs)
          | EncodeFails => (Returns None, kvs)
          | Encoded buf =>
              let '(r, d) :=
                bolt.Update (db kvs) (fun tx =>
                  bolt.Put tx (bolt.Bucket tx bucket) key buf) in
              (r, mkKVStore d)
          end
      | (err, kvs) => (err, kvs)
      end
  end.

(** [kvs.Get(bucket, key, value)]; the second component is the content of
    the caller's variable after the call. *)
Definition Get (kvs : KVStore) (bucket key : string) (value : option V)
  : outcome * option V :=
  bolt.View (db kvs) (fun tx value =>
    match bolt.NewCursor (bolt.Bucket tx bucket) with
    | None => (Panics, value)
    | Some c =>
        let '((k, v), _) := bolt.Seek tx c key in
        if nil_or_differs k key then (Returns (Some ErrNotFound), value)
        else match v with
             | None => (Returns None, value)
             | Some v => Decode v value
             end
    end) value.

(** The calls a client can make on a store. *)
Inductive call : Type :=
  | CallAddBucket (bucket : string)
  | CallPut (bucket key : string) (value : option V)
  | CallDelete (bucket key : string)
  | CallClose.

Definition run (c : call) (kvs : KVStore) : KVStore :=
  match c with
  | CallAddBucket b => (AddBucket kvs b).2
  | CallPut b k v => (Put kvs b k v).2
  | CallDelete b k => (Delete kvs b k).2
  | CallClose => (Close kvs).2
  end.

(** The stores a program can build: a fresh store and any sequence of calls
    on it. *)
Inductive reachable : KVStore -> Prop :=
  | reachable_new : reachable NewKVStore
  | reachable_run c kvs : reachable kvs -> reachable (run c kvs).

(** The entry of [key] in [bucket], if the bucket exists and has the key. *)
Definition stored (kvs : KVStore) (bucket key : string) : option bytes :=
  bolt.root (db kvs) !! bucket ≫= (.!! key).

Definition has_bucket (kvs : KVStore) (bucket : string) : Prop :=
  is_Some (bolt.root (db kvs) !! bucket).

Definition is_open (kvs : KVStore) : Prop := bolt.opened (db kvs) = true.

(** Every stored value was written by the encoder. *)
Definition encoded (kvs : KVStore) : Prop :=
  forall bucket key b, stored kvs bucket key = Some b ->
    exists v, gob_encode v = Encoded b.

End TypedStore.

(** A small instance of the encoding, with values of four Go types:
    booleans and strings are written with a one-byte tag; a function value
    cannot be encoded (the encoder returns an error); on a nil pointer the
    encoder panics. A variable receives the values of its own type only. *)
Inductive gval : Type :=
  | GBool (b : bool)
  | GString (s : string)
  | GFunc
  | GNilPtr.

Definition gval_encode (v : gval) : encoding :=
  match v with
  | GBool true => Encoded "b1"%string
  | GBool false => Encoded "b0"%string
  | GString s => Encoded (String "s" s)
  | GFunc => EncodeFails
  | GNilPtr => EncodePanics
  end.

Definition gval_decode (b : bytes) (d : gval) : option gval :=
  match d, b with
  | GString _, String "s" s => Some (GString s)
  | GBool _, "b1"%string => Some (GBool true)
  | GBool _, "b0"%string => Some (GBool false)
  | _, _ => None
  end.

Definition gval_discard (b : bytes) : bool :=
  match b with
  | String "s" _ | "b1"%string | "b0"%string => true
  | _ => false
  end.

Definition gval_matches (d v : gval) : bool :=
  match d, v with
  | GBool _, GBool _ | GString _, GString _ => true
  | _, _ => false
  end.

Lemma gval_roundtrip (v : gval) (b : bytes) (d : gval) :
  gval_encode v = Encoded b -> gval_matches d v = true -> gval_decode b d = Some v.
Proof.
  destruct v as [[]|s| |], d as [c|t| |]; simpl; intros H M;
    try discriminate; inversion H; reflexivity.
Qed.

Lemma gval_discard_encoded (v : gval) (b : bytes) :
  gval_encode v = Encoded b -> gval_discard b = true.
Proof.
  destruct v as [[]|s| |]; simpl; intros H; inversion H; reflexivity.
Qed.

#[global] Instance gval_gob : Gob gval :=
  {| gob_encode := gval_encode; gob_decode := gval_decode;
     gob_discard := gval_discard; gob_matches := gval_matches;
     gob_roundtrip := gval_roundtrip;
     gob_discard_encoded := gval_discard_encoded |}.

Example scenario_put_get :
  let s := (Put NewKVStore "p" "x" (Some (GString "42"))).2 in
  Get s "p" "x" (Some (GString "")) = (Returns None, Some (GString "42")) /\
  (Delete s "p" "x").1 = Returns None /\
  Get (Delete s "p" "x").2 "p" "x" (Some (GString ""))
    = (Returns (Some ErrNotFound), Some (GString "")).
Proof. vm_compute. auto. Qed.

(** A destination of another type: the decoder returns an error and the
    variable keeps its content; a nil destination only tests presence. *)
Example scenario_type_mismatch :
  let s := (Put NewKVStore "p" "x" (Some (GString "42"))).2 in
  Get s "p" "x" (Some GFunc) = (Returns (Some ErrGob), Some GFunc) /\
  Get s "p" "x" (Some (GBool true)) = (Returns (Some ErrGob), Some (GBool true)) /\
  Get (V:=gval) s "p" "x" None = (Returns None, None).
Proof. vm_compute. auto. Qed.

(** A nil pointer in a non-nil interface: the encoder panics, after the
    bucket was made. *)
Example scenario_nil_pointer :
  (Put NewKVStore "p" "x" (Some GNilPtr)).1 = Panics /\
  has_bucket (Put NewKVStore "p" "x" (Some GNilPtr)).2 "p" /\
  stored (Put NewKVStore "p" "x" (Some GNilPtr)).2 "p" "x" = None.
Proof. vm_compute. eauto. Qed.

(** ** The cursor: what [Seek] finds *)

Section Seek.

Import bolt.

Lemma seek_list_spec (t : bytes) (l : list (bytes * bytes)) :
  match seek_list t l with
  | Some kv =>
      kv ∈ l /\ Bytes.le t kv.1 /\
      forall kv', kv' ∈ l -> Bytes.le t kv'.1 -> Bytes.le kv.1 kv'.1
  | None => forall kv', kv' ∈ l -> ~ Bytes.le t kv'.1
  end.
Proof.
  induction l as [|kv l IH]; simpl.
  - intros kv' H. inversion H.
  - unfold seek_step at 1. fold (seek_list t l).
    destruct (String.leb t kv.1) eqn:Hle.
    + destruct (seek_list t l) as [b|].
      * destruct IH as (Hin & Hb & Hmin).
        destruct (String.ltb kv.1 b.1) eqn:Hlt.
        -- split; [left|split; [exact Hle|]].
           intros kv' Hin' Hle'. apply elem_of_cons in Hin' as [->|Hin'].
           ++ apply Bytes.le_refl.
           ++ eapply Bytes.le_trans; [apply Bytes.lt_le, Hlt|]. now apply Hmin.
        -- split; [now right|split; [exact Hb|]].
           intros kv' Hin' Hle'. apply elem_of_cons in Hin' as [->|Hin'].
           ++ now apply Bytes.not_lt_le.
           ++ now apply Hmin.
      * split; [left|split; [exact Hle|]].
        intros kv' Hin' Hle'. apply elem_of_cons in Hin' as [->|Hin'].
        -- apply Bytes.le_refl.
        -- now destruct (IH kv' Hin').
    + destruct (seek_list t l) as [b|].
      * destruct IH as (Hin & Hb & Hmin).
        split; [now right|split; [exact Hb|]].
        intros kv' Hin' Hle'. apply elem_of_cons in Hin' as [->|Hin'].
        -- unfold Bytes.le in Hle'. congruence.
        -- now apply Hmin.
      * intros kv' Hin' Hle'. apply elem_of_cons in Hin' as [->|Hin'].
        -- unfold Bytes.le in Hle'. congruence.
        -- now apply (IH kv' Hin').
Qed.

(** [first_from] returns the entry with the least key at or after the
    target. *)
Lemma first_from_Some (t : bytes) (bk : gmap bytes bytes) (k v : bytes) :
  first_from t bk = Some (k, v) ->
  bk !! k = Some v /\ Bytes.le t k /\
  forall k' v', bk !! k' = Some v' -> Bytes.le t k' -> Bytes.le k k'.
Proof.
  unfold first_from. intros H.
  pose proof (seek_list_spec t (map_to_list bk)) as S. rewrite H in S.
  destruct S as (Hin & Hle & Hmin). simpl in *.
  split; [now apply elem_of_map_to_list|split; [exact Hle|]].
  intros k' v' Hk' Hle'.
  apply (Hmin (k', v')); [now apply elem_of_map_to_list|exact Hle'].
Qed.

Lemma first_from_None (t : bytes) (bk : gmap bytes bytes) :
  first_from t bk = None ->
  forall k' v', bk !! k' = Some v' -> ~ Bytes.le t k'.
Proof.
  unfold first_from. intros H k' v' Hk'.
  pose proof (seek_list_spec t (map_to_list bk)) as S. rewrite H in S.
  apply (S (k', v')). now apply elem_of_map_to_list.
Qed.

(** A key of the bucket is found, with its value. *)
Lemma first_from_hit (t : bytes) (bk : gmap bytes bytes) (v : bytes) :
  bk !! t = Some v -> first_from t bk = Some (t, v).
Proof.
  intros Ht. destruct (first_from t bk) as [[k w]|] eqn:E.
  - apply first_from_Some in E as (Hk & Hle & Hmin).
    assert (k = t) as ->.
    { apply Bytes.le_antisym; [|exact Hle].
      apply (Hmin t v Ht), Bytes.le_refl. }
    congruence.
  - exfalso. apply (first_from_None t bk E t v Ht), Bytes.le_refl.
Qed.

(** For a key that is not in the bucket, the cursor finds nothing or comes
    to rest on another key. *)
Lemma first_from_miss (t : bytes) (bk : gmap bytes bytes) :
  bk !! t = None ->
  match first_from t bk with
  | Some (k, _) => k <> t
  | None => True
  end.
Proof.
  intros Ht. destruct (first_from t bk) as [[k w]|] eqn:E; [|exact I].
  apply first_from_Some in E as (Hk & _). congruence.
Qed.

(** When a key at or after the target exists, the cursor finds a key. *)
Lemma first_from_is_Some (t : bytes) (bk : gmap bytes bytes) (k v : bytes) :
  bk !! k = Some v -> Bytes.le t k -> is_Some (first_from t bk).
Proof.
  intros Hk Hle. destruct (first_from t bk) eqn:E; [eauto|].
  exfalso. exact (first_from_None t bk E k v Hk Hle).
Qed.

Lemma nil_or_differs_hit (k : bytes) : nil_or_differs (Some k) k = false.
Proof. simpl. now rewrite String.eqb_refl. Qed.

Lemma nil_or_differs_miss (k t : bytes) : k <> t -> nil_or_differs (Some k) t = true.
Proof. simpl. intros H. apply String.eqb_neq in H. now rewrite H. Qed.

End Seek.

(** ** How the operations act on the buckets *)

Section StoreFacts.

Context {V : Type} `{!Gob V}.

Implicit Types (kvs : KVStore) (bucket key : string) (value : option V).

Lemma len_zero (s : bytes) : (len s =? 0) = true <-> s = ""%string.
Proof.
  unfold len. destruct s; simpl; [easy|]. split; discriminate.
Qed.

Lemma len_nonzero (s : bytes) : s <> ""%string -> (len s =? 0) = false.
Proof.
  intros H. destruct (len s =? 0) eqn:E; [|reflexivity].
  now apply len_zero in E.
Qed.

Lemma KVStore_eta kvs : mkKVStore (db kvs) = kvs.
Proof. now destruct kvs. Qed.

Lemma DB_eta_open (d : bolt.DB) :
  bolt.opened d = true -> bolt.mkDB true (bolt.root d) = d.
Proof. destruct d; simpl. now intros ->. Qed.

(** *** Get *)

Lemma Get_closed kvs bucket key value :
  bolt.opened (db kvs) = false ->
  Get kvs bucket key value = (Returns (Some ErrDatabaseNotOpen), value).
Proof. intros H. unfold Get, bolt.View. now rewrite H. Qed.

Lemma Get_no_bucket kvs bucket key value :
  is_open kvs -> bolt.root (db kvs) !! bucket = None ->
  Get kvs bucket key value = (Panics, value).
Proof.
  intros Ho Hb. unfold Get, bolt.View, bolt.Bucket. rewrite Ho, Hb. reflexivity.
Qed.

Lemma Get_absent kvs bucket key value (bk : gmap bytes bytes) :
  is_open kvs -> bolt.root (db kvs) !! bucket = Some bk -> bk !! key = None ->
  Get kvs bucket key value = (Returns (Some ErrNotFound), value).
Proof.
  intros Ho Hb Hk. unfold Get, bolt.View, bolt.Bucket. rewrite Ho, Hb. simpl.
  unfold bolt.Seek. simpl. rewrite Hb. simpl.
  pose proof (first_from_miss key bk Hk) as Hm.
  destruct (bolt.first_from key bk) as [[k v]|]; [|reflexivity].
  now rewrite nil_or_differs_miss.
Qed.

Lemma Get_present kvs bucket key value (bk : gmap bytes bytes) (b : bytes) :
  is_open kvs -> bolt.root (db kvs) !! bucket = Some bk -> bk !! key = Some b ->
  Get kvs bucket key value = Decode b value.
Proof.
  intros Ho Hb Hk. unfold Get, bolt.View, bolt.Bucket. rewrite Ho, Hb. simpl.
  unfold bolt.Seek. simpl. rewrite Hb. simpl.
  rewrite (first_from_hit key bk b Hk). now rewrite nil_or_differs_hit.
Qed.

Lemma stored_Some kvs bucket key (b : bytes) :
  stored kvs bucket key = Some b <->
  exists bk, bolt.root (db kvs) !! bucket = Some bk /\ bk !! key = Some b.
Proof.
  unfold stored. destruct (bolt.root (db kvs) !! bucket) as [bk|]; simpl.
  - split; [eauto|]. now intros (? & [= <-] & ?).
  - split; [discriminate|]. now intros (? & ? & ?).
Qed.

(** *** Delete *)

Lemma Delete_no_bucket kvs bucket key :
  is_open kvs -> bolt.root (db kvs) !! bucket = None ->
  Delete kvs bucket key = (Panics, kvs).
Proof.
  intros Ho Hb. unfold Delete, bolt.Update, bolt.Bucket. rewrite Ho, Hb. simpl.
  now rewrite KVStore_eta.
Qed.

Lemma Delete_absent kvs bucket key (bk : gmap bytes bytes) :
  is_open kvs -> bolt.root (db kvs) !! bucket = Some bk -> bk !! key = None ->
  Delete kvs bucket key = (Returns (Some ErrNotFound), kvs).
Proof.
  intros Ho Hb Hk. unfold Delete, bolt.Update, bolt.Bucket. rewrite Ho, Hb. simpl.
  unfold bolt.Seek. simpl. rewrite Hb. simpl.
  pose proof (first_from_miss key bk Hk) as Hm.
  destruct (bolt.first_from key bk) as [[k v]|];
    [rewrite (nil_or_differs_miss k key Hm)|]; simpl; now rewrite KVStore_eta.
Qed.

Lemma Delete_present kvs bucket key (bk : gmap bytes bytes) (b : bytes) :
  is_open kvs -> bolt.root (db kvs) !! bucket = Some bk -> bk !! key = Some b ->
  Delete kvs bucket key =
    (Returns None,
     mkKVStore (bolt.mkDB true (<[bucket := delete key bk]> (bolt.root (db kvs))))).
Proof.
  intros Ho Hb Hk. unfold Delete, bolt.Update, bolt.Bucket. rewrite Ho, Hb. simpl.
  unfold bolt.Seek. simpl. rewrite Hb. simpl.
  rewrite (first_from_hit key bk b Hk). rewrite nil_or_differs_hit.
  unfold bolt.Delete. simpl. do 3 f_equal.
  apply map_eq. intros i. rewrite lookup_alter, lookup_insert.
  repeat case_decide; subst; try congruence. now rewrite Hb.
Qed.

(** *** AddBucket *)

Lemma AddBucket_closed kvs bucket :
  bolt.opened (db kvs) = false ->
  AddBucket kvs bucket = (Returns (Some ErrDatabaseNotOpen), kvs).
Proof.
  intros H. unfold AddBucket, bolt.Update. rewrite H. now rewrite KVStore_eta.
Qed.

Lemma AddBucket_no_name kvs :
  is_open kvs ->
  AddBucket kvs "" = (Returns (Some ErrBucketNameRequired), kvs).
Proof.
  intros Ho. unfold AddBucket, bolt.Update. rewrite Ho. simpl.
  now rewrite KVStore_eta.
Qed.

Lemma AddBucket_existing kvs bucket (bk : gmap bytes bytes) :
  is_open kvs -> bucket <> ""%string ->
  bolt.root (db kvs) !! bucket = Some bk ->
  AddBucket kvs bucket = (Returns None, kvs).
Proof.
  intros Ho Hn Hb. unfold AddBucket, bolt.Update, bolt.CreateBucketIfNotExists.
  rewrite Ho, (len_nonzero _ Hn), Hb. rewrite (DB_eta_open _ Ho).
  now rewrite KVStore_eta.
Qed.

Lemma AddBucket_new kvs bucket :
  is_open kvs -> bucket <> ""%string ->
  bolt.root (db kvs) !! bucket = None ->
  AddBucket kvs bucket =
    (Returns None, mkKVStore (bolt.mkDB true (<[bucket := ∅]> (bolt.root (db kvs))))).
Proof.
  intros Ho Hn Hb. unfold AddBucket, bolt.Update, bolt.CreateBucketIfNotExists.
  now rewrite Ho, (len_nonzero _ Hn), Hb.
Qed.

(** After a successful [AddBucket] the store is open, has the bucket, and
    holds the entries it held before. *)
Lemma AddBucket_ok kvs bucket :
  is_open kvs -> bucket <> ""%string ->
  exists kvs1, AddBucket kvs bucket = (Returns None, kvs1) /\
    is_open kvs1 /\
    bolt.root (db kvs1) !! bucket =
      Some (default ∅ (bolt.root (db kvs) !! bucket)) /\
    (forall b', b' <> bucket ->
       bolt.root (db kvs1) !! b' = bolt.root (db kvs) !! b').
Proof.
  intros Ho Hn. destruct (bolt.root (db kvs) !! bucket) as [bk|] eqn:Hb.
  - exists kvs. rewrite (AddBucket_existing kvs bucket bk Ho Hn Hb). auto.
  - eexists. rewrite (AddBucket_new kvs bucket Ho Hn Hb). split; [reflexivity|].
    simpl. split; [reflexivity|]. split; [apply lookup_insert_eq|].
    intros b' Hne. now apply lookup_insert_ne.
Qed.

End StoreFacts.

Section PutFacts.

Context {V : Type} `{!Gob V}.

Implicit Types (kvs : KVStore) (bucket key : string) (v : V).

(** The keys the engine accepts. *)
Definition valid_key (key : string) : Prop := 0 < len key <= bolt.MaxKeySize.

(** The values the engine accepts. *)
Definition valid_value (buf : bytes) : Prop := len buf <= bolt.MaxValueSize.

Lemma alter_present {A : Type} (f : A -> A) (m : gmap bytes A) (i : bytes) (x : A) :
  m !! i = Some x -> alter f i m = <[i := f x]> m.
Proof.
  intros Hi. apply map_eq. intros j. rewrite lookup_alter, lookup_insert.
  case_decide; subst; [now rewrite Hi|reflexivity].
Qed.

(** [Put] on an open store and a named bucket, step by step: the bucket is
    made first; then the value is encoded; then the engine checks the key and
    the value and writes the entry. *)
Lemma Put_open kvs bucket key v :
  is_open kvs -> bucket <> ""%string ->
  exists kvs1, AddBucket kvs bucket = (Returns None, kvs1) /\
    is_open kvs1 /\
    bolt.root (db kvs1) !! bucket = Some (default ∅ (bolt.root (db kvs) !! bucket)) /\
    (forall b', b' <> bucket ->
       bolt.root (db kvs1) !! b' = bolt.root (db kvs) !! b') /\
    Put kvs bucket key (Some v) =
      match gob_encode v with
      | EncodePanics => (Panics, kvs1)
      | EncodeFails => (Returns None, kvs1)
      | Encoded buf =>
          if len key =? 0 then (Returns (Some ErrKeyRequired), kvs1)
          else if len key >? bolt.MaxKeySize then (Returns (Some ErrKeyTooLarge), kvs1)
          else if len buf >? bolt.MaxValueSize then (Returns (Some ErrValueTooLarge), kvs1)
          else (Returns None,
                mkKVStore (bolt.mkDB true
                  (<[bucket := <[key := buf]> (default ∅ (bolt.root (db kvs) !! bucket))]>
                     (bolt.root (db kvs1)))))
      end.
Proof.
  intros Ho Hn.
  destruct (AddBucket_ok kvs bucket Ho Hn) as (kvs1 & HA & Ho1 & Hb1 & Hoth).
  exists kvs1. repeat (split; [assumption|]).
  unfold Put. rewrite HA. destruct (gob_encode v) as [buf| |]; [|reflexivity..].
  unfold bolt.Update, bolt.Bucket, bolt.Put. rewrite Ho1, Hb1.
  destruct (len key =? 0); [now rewrite KVStore_eta|].
  destruct (len key >? bolt.MaxKeySize); [now rewrite KVStore_eta|].
  destruct (len buf >? bolt.MaxValueSize); [now rewrite KVStore_eta|].
  now rewrite (alter_present _ _ _ _ Hb1).
Qed.

Lemma Put_closed kvs bucket key v :
  bolt.opened (db kvs) = false ->
  Put kvs bucket key (Some v) = (Returns (Some ErrDatabaseNotOpen), kvs).
Proof. intros Hc. unfold Put. now rewrite AddBucket_closed. Qed.

Lemma Put_no_bucket_name kvs key v :
  is_open kvs ->
  Put kvs "" key (Some v) = (Returns (Some ErrBucketNameRequired), kvs).
Proof. intros Ho. unfold Put. now rewrite AddBucket_no_name. Qed.

Lemma stored_AddBucket_ok kvs kvs1 bucket b' k' :
  bolt.root (db kvs1) !! bucket = Some (default ∅ (bolt.root (db kvs) !! bucket)) ->
  (forall b', b' <> bucket ->
     bolt.root (db kvs1) !! b' = bolt.root (db kvs) !! b') ->
  stored kvs1 b' k' = stored kvs b' k'.
Proof.
  intros Hb1 Hoth. unfold stored. destruct (decide (b' = bucket)) as [->|Hne].
  - rewrite Hb1. destruct (bolt.root (db kvs) !! bucket); simpl; [reflexivity|].
    apply lookup_empty.
  - now rewrite (Hoth b' Hne).
Qed.


(** An entry of the store after a call was there before the call or was
    written by the encoder. *)
Lemma stored_run (c : call) kvs b' k' (x : bytes) :
  stored (run c kvs) b' k' = Some x ->
  stored kvs b' k' = Some x \/ exists v, gob_encode v = Encoded x.
Proof.
  destruct (bolt.opened (db kvs)) eqn:Ho.
  2:{ destruct c as [b|b k [v|]|b k|]; cbn [run].
      - rewrite AddBucket_closed by exact Ho. auto.
      - rewrite Put_closed by exact Ho. auto.
      - auto.
      - unfold Delete, bolt.Update. rewrite Ho. simpl. rewrite KVStore_eta. auto.
      - auto. }
  destruct c as [b|b k [v|]|b k|]; cbn [run].
  - destruct (decide (b = ""%string)) as [->|Hn].
    + rewrite AddBucket_no_name by exact Ho. auto.
    + destruct (AddBucket_ok kvs b Ho Hn) as (kvs1 & -> & _ & Hb1 & Hoth). simpl.
      rewrite (stored_AddBucket_ok kvs kvs1 b b' k' Hb1 Hoth). auto.
  - destruct (decide (b = ""%string)) as [->|Hn].
    + rewrite Put_no_bucket_name by exact Ho. auto.
    + destruct (Put_open kvs b k v Ho Hn) as (kvs1 & _ & _ & Hb1 & Hoth & ->).
      pose proof (stored_AddBucket_ok kvs kvs1 b b' k' Hb1 Hoth) as Hs.
      destruct (gob_encode v) as [buf| |] eqn:He; simpl; [|rewrite Hs; auto..].
      destruct (len k =? 0); simpl; [rewrite Hs; auto|].
      destruct (len k >? bolt.MaxKeySize); simpl; [rewrite Hs; auto|].
      destruct (len buf >? bolt.MaxValueSize); simpl; [rewrite Hs; auto|].
      unfold stored at 1. simpl.
      destruct (decide (b' = b)) as [->|Hb'].
      * rewrite lookup_insert_eq. simpl.
        destruct (decide (k' = k)) as [->|Hk'].
        -- rewrite lookup_insert_eq. intros [= <-]. eauto.
        -- rewrite lookup_insert_ne by congruence. intros Hx. left.
           unfold stored. destruct (bolt.root (db kvs) !! b); simpl in *;
             [exact Hx|now rewrite lookup_empty in Hx].
      * rewrite lookup_insert_ne by congruence.
        fold (stored kvs1 b' k'). rewrite Hs. auto.
  - auto.
  - destruct (bolt.root (db kvs) !! b) as [bk|] eqn:Hb.
    + destruct (bk !! k) as [y|] eqn:Hk.
      * rewrite (Delete_present kvs b k bk y Ho Hb Hk). unfold stored at 1. simpl.
        destruct (decide (b' = b)) as [->|Hb'].
        -- rewrite lookup_insert_eq. simpl. intros Hx. left.
           apply lookup_delete_Some in Hx as [_ Hx].
           apply stored_Some. eauto.
        -- rewrite lookup_insert_ne by congruence. auto.
      * rewrite (Delete_absent kvs b k bk Ho Hb Hk). auto.
    + rewrite (Delete_no_bucket kvs b k Ho Hb). auto.
  - auto.
Qed.

(** Every store a program can build holds encoder output only. *)
Lemma reachable_encoded kvs : reachable kvs -> encoded kvs.
Proof.
  induction 1 as [|c kvs _ IH].
  - intros b k x. unfold stored. simpl. now rewrite lookup_empty.
  - intros b k x Hx. apply stored_run in Hx as [Hx|Hx]; [|exact Hx].
    now apply (IH b k x).
Qed.

End PutFacts.

(** ** Properties of the typed store *)

Section StoreProperties.

Context {V : Type} `{!Gob V}.

Implicit Types (kvs : KVStore) (bucket key : string) (v : V).

Lemma Put_keeps_open kvs bucket key (value : option V) :
  is_open kvs -> is_open (Put kvs bucket key value).2.
Proof.
  intros Ho. destruct value as [v|]; [|exact Ho].
  destruct (decide (bucket = ""%string)) as [->|Hn].
  - now rewrite Put_no_bucket_name.
  - destruct (Put_open kvs bucket key v Ho Hn) as (kvs1 & _ & Ho1 & _ & _ & ->).
    destruct (gob_encode v) as [buf| |]; [|exact Ho1..].
    destruct (len key =? 0); [exact Ho1|].
    destruct (len key >? bolt.MaxKeySize); [exact Ho1|].
    destruct (len buf >? bolt.MaxValueSize); [exact Ho1|reflexivity].
Qed.


Lemma Decode_discard v (buf : bytes) :
  gob_encode v = Encoded buf -> Decode (V:=V) buf None = (Returns None, None).
Proof. intros He. unfold Decode. now rewrite (gob_discard_encoded v buf He). Qed.


(** The engine refuses the empty key: nothing is written under it, on any
    open store and for any value. *)
Lemma Put_empty_key kvs bucket v (buf : bytes) :
  is_open kvs -> bucket <> ""%string -> gob_encode v = Encoded buf ->
  (Put kvs bucket "" (Some v)).1 = Returns (Some ErrKeyRequired) /\
  forall b' k', stored (Put kvs bucket "" (Some v)).2 b' k' = stored kvs b' k'.
Proof.
  intros Ho Hn He.
  destruct (Put_open kvs bucket "" v Ho Hn) as (kvs1 & _ & _ & Hb1 & Hoth & ->).
  rewrite He. simpl. split; [reflexivity|].
  intros b' k'. now apply stored_AddBucket_ok with bucket.
Qed.

(** [Put] with the nil value returns [ErrBadValue] and hands back the store
    it was given, whatever the bucket, the key and the state of the store
    (even a closed one: the engine is not called); every later [Get] answers
    as it would have before. *)
Lemma Put_nil_rejected kvs bucket key :
  Put (V:=V) kvs bucket key None = (Returns (Some ErrBadValue), kvs) /\
  forall b' k' (d : option V),
    Get (Put (V:=V) kvs bucket key None).2 b' k' d = Get kvs b' k' d.
Proof. split; reflexivity. Qed.

(** C4, as amended. On an open store and a named bucket, [Put] of a value
    that the encoder refuses returns nil and writes no entry: the store is
    the one [AddBucket] leaves, that is, the bucket exists afterwards (it is
    created empty when it was missing), the store itself is unchanged when
    the bucket existed, all other buckets and all entries are as before, and
    [Get] of a key that was absent returns [ErrNotFound]. *)
Theorem Put_unencodable kvs bucket key v :
  is_open kvs -> bucket <> ""%string -> gob_encode v = EncodeFails ->
  let kvs' := (Put kvs bucket key (Some v)).2 in
  (Put kvs bucket key (Some v)).1 = Returns None /\
  kvs' = (AddBucket kvs bucket).2 /\
  bolt.root (db kvs') !! bucket = Some (default ∅ (bolt.root (db kvs) !! bucket)) /\
  (has_bucket kvs bucket -> kvs' = kvs) /\
  (forall b', b' <> bucket -> bolt.root (db kvs') !! b' = bolt.root (db kvs) !! b') /\
  (forall b' k', stored kvs' b' k' = stored kvs b' k') /\
  (stored kvs bucket key = None ->
   forall d : option V, Get kvs' bucket key d = (Returns (Some ErrNotFound), d)).
Proof.
  intros Ho Hn He kvs'. subst kvs'.
  destruct (Put_open kvs bucket key v Ho Hn) as (kvs1 & HA & Ho1 & Hb1 & Hoth & ->).
  rewrite He, HA. simpl.
  pose proof (stored_AddBucket_ok kvs kvs1 bucket) as Hs.
  repeat split; auto.
  - intros [bk Hb]. rewrite (AddBucket_existing kvs bucket bk Ho Hn Hb) in HA.
    congruence.
  - intros Habs d. eapply Get_absent; [exact Ho1|exact Hb1|].
    specialize (Hs bucket key Hb1 Hoth). rewrite Habs in Hs.
    unfold stored in Hs. rewrite Hb1 in Hs. exact Hs.
Qed.

(** C5. On a store built by the operations of the store, [Get] with a nil
    destination returns nil for every key that is present, and nothing is
    handed back: the call tests presence only. *)
Theorem Get_nil_destination kvs bucket key (buf : bytes) :
  reachable (V:=V) kvs -> is_open kvs -> stored kvs bucket key = Some buf ->
  Get (V:=V) kvs bucket key None = (Returns None, None).
Proof.
  intros Hr Ho Hs.
  destruct (reachable_encoded kvs Hr bucket key buf Hs) as (v & He).
  apply stored_Some in Hs as (bk & Hb & Hk).
  rewrite (Get_present kvs bucket key None bk buf Ho Hb Hk).
  now apply Decode_discard with v.
Qed.


(** C7. Deleting a key that is present returns nil and removes that key and
    no other; deleting it again returns [ErrNotFound] and changes nothing. *)
Theorem Delete_twice kvs bucket key (buf : bytes) :
  is_open kvs -> stored kvs bucket key = Some buf ->
  let kvs1 := (Delete kvs bucket key).2 in
  (Delete kvs bucket key).1 = Returns None /\
  stored kvs1 bucket key = None /\
  (forall b' k', (b', k') <> (bucket, key) -> stored kvs1 b' k' = stored kvs b' k') /\
  Delete kvs1 bucket key = (Returns (Some ErrNotFound), kvs1) /\
  (forall d : option V, Get kvs1 bucket key d = (Returns (Some ErrNotFound), d)).
Proof.
  intros Ho Hs kvs1. subst kvs1.
  apply stored_Some in Hs as (bk & Hb & Hk).
  rewrite (Delete_present kvs bucket key bk buf Ho Hb Hk). simpl.
  set (kvs1 := mkKVStore _).
  assert (bolt.root (db kvs1) !! bucket = Some (delete key bk)) as Hb1
    by apply lookup_insert_eq.
  assert (delete key bk !! key = None) as Hk1 by apply lookup_delete_eq.
  split; [reflexivity|]. split; [|split; [|split]].
  - unfold stored. rewrite Hb1. exact Hk1.
  - intros b' k' Hne. unfold stored. destruct (decide (b' = bucket)) as [->|Hb'].
    + rewrite Hb1, Hb. simpl. apply lookup_delete_ne. congruence.
    + subst kvs1. simpl. now rewrite lookup_insert_ne by congruence.
  - now apply Delete_absent with (delete key bk).
  - intros d. now apply Get_absent with (delete key bk).
Qed.

(** C8. In an existing bucket, a key that is not stored is not found by
    [Get] nor by [Delete], which leaves the store as it is. This holds also
    when the bucket has a longer key that starts with the key asked for: the
    cursor then comes to rest on a key other than the one asked for, at or
    before that longer key, and the comparison of the keys rejects it. *)
Theorem Seek_prefix_not_found kvs bucket key (bk : gmap bytes bytes) :
  is_open kvs -> bolt.root (db kvs) !! bucket = Some bk -> bk !! key = None ->
  (forall d : option V, Get kvs bucket key d = (Returns (Some ErrNotFound), d)) /\
  Delete kvs bucket key = (Returns (Some ErrNotFound), kvs) /\
  (forall c rest (x : bytes), bk !! (key ++ String c rest)%string = Some x ->
     exists k w,
       (bolt.Seek (bolt.root (db kvs)) (bolt.mkCursor bucket None) key).1
         = (Some k, Some w) /\
       k <> key /\ nil_or_differs (Some k) key = true /\
       Bytes.le key k /\ Bytes.le k (key ++ String c rest)).
Proof.
  intros Ho Hb Hk. split; [|split].
  - intros d. now apply Get_absent with bk.
  - now apply Delete_absent with bk.
  - intros c rest x Hlong. unfold bolt.Seek. simpl. rewrite Hb. simpl.
    destruct (first_from_is_Some key bk _ x Hlong (Bytes.le_app key _))
      as [[k w] Hf].
    rewrite Hf. exists k, w.
    apply first_from_Some in Hf as (Hkw & Hle & Hmin).
    assert (k <> key) as Hne by congruence.
    repeat split; auto.
    + now apply nil_or_differs_miss.
    + apply (Hmin _ x Hlong), Bytes.le_app.
Qed.

End StoreProperties.

(** ** The store at work on the small encoding *)

(** C1. The empty key is refused: with the bucket in place and a value that
    encodes, [Put] under the empty key returns the engine's [ErrKeyRequired],
    writes nothing, and the following [Get] returns [ErrNotFound] and leaves
    the destination as it was. *)
Theorem Put_empty_key_rejected :
  let kvs := NewKVStore in
  let v := GString "value" in
  gob_encode v = Encoded "svalue"%string /\
  (Put kvs "p" "" (Some v)).1 = Returns (Some ErrKeyRequired) /\
  stored (Put kvs "p" "" (Some v)).2 "p" "" = None /\
  Get (Put kvs "p" "" (Some v)).2 "p" "" (Some (GBool false))
    = (Returns (Some ErrNotFound), Some (GBool false)).
Proof. vm_compute. repeat split. Qed.

(** C2. A bucket that was never created: [Get] and [Delete] do not return,
    they panic on the nil bucket, on a fresh store and also for a key that
    was written under the same name in another bucket. *)
Theorem Get_Delete_missing_bucket_panic :
  Get NewKVStore "b" "k" (Some (GBool false)) = (Panics, Some (GBool false)) /\
  Delete NewKVStore "b" "k" = (Panics, NewKVStore) /\
  let kvs := (Put NewKVStore "a" "k" (Some (GBool true))).2 in
  Get kvs "a" "k" (Some (GBool false)) = (Returns None, Some (GBool true)) /\
  Get kvs "b" "k" (Some (GBool false)) = (Panics, Some (GBool false)) /\
  Delete kvs "b" "k" = (Panics, kvs).
Proof. vm_compute. repeat split. Qed.

(** C3. [Put] with the nil value returns [ErrBadValue] and leaves the store as
    it was. On a fresh store the key is absent, yet the [Get] that follows
    does not return [ErrNotFound]: the bucket was never made and [Get] panics
    on the nil bucket. With the bucket in place the same [Get] returns
    [ErrNotFound]. *)
Theorem Put_nil_then_Get_panics :
  Put (V:=gval) NewKVStore "p" "k" None = (Returns (Some ErrBadValue), NewKVStore) /\
  stored NewKVStore "p" "k" = None /\
  Get (Put (V:=gval) NewKVStore "p" "k" None).2 "p" "k" (Some (GBool false))
    = (Panics, Some (GBool false)) /\
  let kvs := (AddBucket NewKVStore "p").2 in
  Put (V:=gval) kvs "p" "k" None = (Returns (Some ErrBadValue), kvs) /\
  Get (Put (V:=gval) kvs "p" "k" None).2 "p" "k" (Some (GBool false))
    = (Returns (Some ErrNotFound), Some (GBool false)).
Proof. vm_compute. repeat split. Qed.

(** With the second bucket in place, the key of the first bucket is not found
    in it. *)
Example bucket_isolation :
  let kvs := (AddBucket (Put NewKVStore "a" "k" (Some (GBool true))).2 "b").2 in
  Get kvs "b" "k" (Some (GBool false)) = (Returns (Some ErrNotFound), Some (GBool false)) /\
  Delete kvs "b" "k" = (Returns (Some ErrNotFound), kvs).
Proof. vm_compute. repeat split. Qed.

(** C4, as stated, fails: on a fresh store the bucket is created although the
    value is not written. *)
Lemma Put_unencodable_changes_store :
  gob_encode GFunc = EncodeFails /\
  (Put NewKVStore "p" "k" (Some GFunc)).1 = Returns None /\
  (Put NewKVStore "p" "k" (Some GFunc)).2 <> NewKVStore /\
  bolt.root (db NewKVStore) !! "p"%string = None /\
  bolt.root (db (Put NewKVStore "p" "k" (Some GFunc)).2) !! "p"%string = Some ∅.
Proof.
  repeat split.
  intros H. apply (f_equal (fun s => bolt.root (db s) !! "p"%string)) in H.
  vm_compute in H. discriminate H.
Qed.

Lemma Put_unencodable_witness :
  is_open NewKVStore /\ "p"%string <> ""%string /\ gob_encode GFunc = EncodeFails /\
  (Put NewKVStore "p" "k" (Some GFunc)).1 = Returns None /\
  forall b' k', stored (Put NewKVStore "p" "k" (Some GFunc)).2 b' k'
                = stored NewKVStore b' k'.
Proof.
  assert (is_open NewKVStore) as Ho by reflexivity.
  assert ("p"%string <> ""%string) as Hn by discriminate.
  assert (gob_encode GFunc = EncodeFails) as He by reflexivity.
  repeat (split; [assumption|]).
  pose proof (Put_unencodable NewKVStore "p" "k" GFunc Ho Hn He) as H.
  split; [apply H|apply H].
Defined.

Lemma Get_nil_destination_witness :
  let kvs := run (CallPut "p" "x" (Some (GBool true))) NewKVStore in
  reachable kvs /\ is_open kvs /\ stored kvs "p" "x" = Some "b1"%string /\
  Get (V:=gval) kvs "p" "x" None = (Returns None, None).
Proof.
  intros kvs.
  assert (reachable kvs) as Hr by (apply reachable_run, reachable_new).
  assert (is_open kvs) as Ho by reflexivity.
  assert (stored kvs "p" "x" = Some "b1"%string) as Hs by (vm_compute; reflexivity).
  repeat (split; [assumption|]).
  exact (Get_nil_destination kvs "p" "x" "b1" Hr Ho Hs).
Defined.



Lemma Delete_twice_witness :
  let kvs := (Put NewKVStore "p" "x" (Some (GBool true))).2 in
  is_open kvs /\ stored kvs "p" "x" = Some "b1"%string /\
  (Delete kvs "p" "x").1 = Returns None /\
  Delete (Delete kvs "p" "x").2 "p" "x"
    = (Returns (Some ErrNotFound), (Delete kvs "p" "x").2).
Proof.
  intros kvs.
  assert (is_open kvs) as Ho by reflexivity.
  assert (stored kvs "p" "x" = Some "b1"%string) as Hs by (vm_compute; reflexivity).
  repeat (split; [assumption|]).
  pose proof (Delete_twice (V:=gval) kvs "p" "x" "b1" Ho Hs) as H.
  split; apply H.
Defined.

Lemma Seek_prefix_not_found_witness :
  let kvs := (Put NewKVStore "p" "abc" (Some (GBool true))).2 in
  let bk : gmap bytes bytes := {[ "abc"%string := "b1"%string ]} in
  is_open kvs /\ bolt.root (db kvs) !! "p"%string = Some bk /\
  bk !! "ab"%string = None /\
  Get kvs "p" "ab" (Some GFunc) = (Returns (Some ErrNotFound), Some GFunc) /\
  Delete kvs "p" "ab" = (Returns (Some ErrNotFound), kvs).
Proof.
  intros kvs bk.
  assert (is_open kvs) as Ho by reflexivity.
  assert (bolt.root (db kvs) !! "p"%string = Some bk) as Hb by (vm_compute; reflexivity).
  assert (bk !! "ab"%string = None) as Hk by (vm_compute; reflexivity).
  repeat (split; [assumption|]).
  pose proof (Seek_prefix_not_found (V:=gval) kvs "p" "ab" bk Ho Hb Hk) as H.
  split; apply H.
Defined.

(** The cursor sent to ["ab"] in a bucket that holds ["abc"] rests on ["abc"]. *)
Example Seek_lands_on_longer_key :
  let kvs := (Put NewKVStore "p" "abc" (Some (GBool true))).2 in
  (bolt.Seek (bolt.root (db kvs)) (bolt.mkCursor "p" None) "ab").1
    = (Some "abc"%string, Some "b1"%string).
Proof. vm_compute. reflexivity. Qed.

(** ** The dedup cache and the poll cycle *)

Module time.

(** An instant, in nanoseconds from the Unix epoch, and a [Duration], a
    signed 64-bit count of nanoseconds. *)
Definition Time : Type := Z.
Definition Duration : Type := Z.

Definition minDuration : Duration := - 2 ^ 63.
Definition maxDuration : Duration := 2 ^ 63 - 1.

(** The zero [Time]: January 1, year 1, 00:00:00 UTC. *)
Definition zero : Time := -62135596800 * 1000000000.

(** [t.Sub(u)]: the duration [t - u], or the largest (smallest) duration
    when the difference does not fit. *)
Definition Sub (t u : Time) : Duration :=
  if t - u >? maxDuration then maxDuration
  else if t - u <? minDuration then minDuration
  else t - u.

End time.

(** Modelled from the spec: the [Config] type of the global [conf], which is
    declared in another file of the repository. The poll loop uses three
    fields: the dedup records (identifier to last-seen time), the maximum
    retention duration and the poll interval. *)
Record Config : Type := mkConfig {
  keys : gmap string time.Time;
  maxTime : time.Duration;
  sleep : time.Duration
}.

(** [conf.keys[key]]: the zero [Time] for a key that is not in the map. *)
Definition index (m : gmap string time.Time) (key : string) : time.Time :=
  default time.zero (m !! key).

(** The body of the [range] loop of [cleanKeys], over the keys in the order
    the iteration produces them. *)
Fixpoint clean_range (now : time.Time) (maxT : time.Duration)
    (order : list string) (m : gmap string time.Time) : gmap string time.Time :=
  match order with
  | [] => m
  | key :: order' =>
      clean_range now maxT order'
        (if time.Sub now (index m key) >? maxT then delete key m else m)
  end.

(** [cleanKeys()], with [now] the reading of [time.Now()]. The loop deletes
    the key it is at and no other, so it visits every key of the map once. *)
Definition cleanKeys (now : time.Time) (conf : Config) : Config :=
  mkConfig (clean_range now (maxTime conf) (map_to_list (keys conf)).*1 (keys conf))
           (maxTime conf) (sleep conf).

(** The age of a record marked at [t]: the duration from [t] to [now]. *)
Definition age (now t : time.Time) : time.Duration := time.Sub now t.

(** What an eviction pass is to do with a record, in the words of the
    specification: remove it when its age is above the maximum age. *)
Definition evict_record (now : time.Time) (maxAge : time.Duration)
    (record : option time.Time) : option time.Time :=
  match record with
  | Some t => if age now t >? maxAge then None else Some t
  | None => None
  end.

(** For a maximum age that is a duration below the largest one, comparing the
    age with it is comparing the exact difference of the two instants. *)
Lemma age_above_exact (now t : time.Time) (maxAge : time.Duration) :
  time.minDuration <= maxAge < time.maxDuration ->
  (age now t >? maxAge) = (now - t >? maxAge).
Proof.
  unfold age, time.Sub, time.maxDuration, time.minDuration. intros H.
  destruct (Z.gtb_spec (now - t) (2 ^ 63 - 1));
    [|destruct (Z.ltb_spec (now - t) (- 2 ^ 63))]; try reflexivity.
  - destruct (Z.gtb_spec (2 ^ 63 - 1) maxAge), (Z.gtb_spec (now - t) maxAge);
      try reflexivity; lia.
  - destruct (Z.gtb_spec (- 2 ^ 63) maxAge), (Z.gtb_spec (now - t) maxAge);
      try reflexivity; lia.
Qed.

Section Evict.

Variables (now : time.Time) (maxT : time.Duration).

Lemma evict_record_idem (r : option time.Time) :
  evict_record now maxT (evict_record now maxT r) = evict_record now maxT r.
Proof.
  destruct r as [t|]; simpl; [|reflexivity].
  destruct (age now t >? maxT) eqn:E; simpl; [reflexivity|now rewrite E].
Qed.

(** One turn of the loop, seen from a key. *)
Lemma clean_step_lookup (m : gmap string time.Time) (k key : string) :
  (if time.Sub now (index m k) >? maxT then delete k m else m) !! key =
    if decide (key = k) then evict_record now maxT (m !! key) else m !! key.
Proof.
  unfold index. destruct (decide (key = k)) as [->|Hne].
  - destruct (m !! k) as [t|] eqn:Hk; simpl.
    + unfold age. destruct (time.Sub now t >? maxT); [apply lookup_delete_eq|exact Hk].
    + destruct (_ >? _); [apply lookup_delete_eq|exact Hk].
  - destruct (_ >? _); [now apply lookup_delete_ne|reflexivity].
Qed.

Lemma clean_range_lookup (order : list string) (m : gmap string time.Time)
    (key : string) :
  clean_range now maxT order m !! key =
    if decide (key ∈ order) then evict_record now maxT (m !! key) else m !! key.
Proof.
  revert m. induction order as [|k order IH]; intros m.
  - simpl. destruct (decide (key ∈ [])) as [H|H]; [inversion H|reflexivity].
  - cbn [clean_range]. rewrite IH, clean_step_lookup.
    destruct (decide (key = k)) as [->|Hne].
    + rewrite evict_record_idem.
      rewrite (decide_True (P := k ∈ k :: order)) by left.
      now destruct (decide (k ∈ order)).
    + destruct (decide (key ∈ order)) as [Hin|Hnin].
      * now rewrite (decide_True (P := key ∈ k :: order)) by now right.
      * rewrite (decide_False (P := key ∈ k :: order)); [reflexivity|].
        intros H. apply elem_of_cons in H as [H|H]; congruence.
Qed.

End Evict.

(** C9. An eviction pass removes the records whose age is above the maximum
    age and no others, and leaves the kept records and the configuration as
    they are. With a maximum age of 10 and a record marked at 0, the pass at 5
    (and at 10) keeps the record and the pass at 11 removes it. *)
Theorem cleanKeys_evicts_stale :
  (forall now conf key,
     keys (cleanKeys now conf) !! key
       = evict_record now (maxTime conf) (keys conf !! key)) /\
  (forall now conf,
     maxTime (cleanKeys now conf) = maxTime conf /\
     sleep (cleanKeys now conf) = sleep conf) /\
  (forall id sl,
     let conf := mkConfig {[ id := 0 ]} 10 sl in
     keys (cleanKeys 5 conf) = {[ id := 0 ]} /\
     keys (cleanKeys 10 conf) = {[ id := 0 ]} /\
     keys (cleanKeys 11 conf) = ∅).
Proof.
  assert (forall now conf key,
     keys (cleanKeys now conf) !! key
       = evict_record now (maxTime conf) (keys conf !! key)) as Hspec.
  { intros now conf key. unfold cleanKeys. simpl. rewrite clean_range_lookup.
    case_decide as Hin; [reflexivity|].
    destruct (keys conf !! key) as [t|] eqn:Hk; [|reflexivity].
    exfalso. apply Hin. apply list_elem_of_fmap. exists (key, t).
    split; [reflexivity|]. now apply elem_of_map_to_list. }
  split; [exact Hspec|]. split; [intros; split; reflexivity|].
  intros id sl conf.
  repeat split; apply map_eq; intros k; rewrite Hspec; subst conf; simpl;
    (destruct (decide (k = id)) as [->|Hne];
     [rewrite lookup_singleton_eq|rewrite lookup_singleton_ne by congruence]);
    reflexivity.
Qed.

(** *** One poll cycle: [get] and [scrape] *)

(** What the network gives back to one [http.Get]. *)
Inductive response : Type :=
  | NetError                                      (* [http.Get] returns an error *)
  | Response (StatusCode : Z) (Body : option bytes).
      (* [Body = None]: reading the body fails *)

(** The lines the poll cycle writes to the log. *)
Inductive logline : Type :=
  | LogChecking                        (* [+] Checking for new pastes. *)
  | LogNoAccess (url : string)         (* [-] Could not access %s. *)
  | LogHTTPError (StatusCode : Z)      (* [-] Received HTTP error %d. *)
  | LogNoRead (url : string)           (* [-] Could not read response from %s. *)
  | LogNoParse                         (* [-] Could not parse list of pastes. *)
  | LogError (msg : string)            (* [-] %s. *)
  | LogPayload (resp : bytes).         (* the payload itself *)

(** [json.Unmarshal(resp, &pastes)] into a list of items of type [P] (the
    [*Paste] of the repository): an error message or the items. The empty
    input is not a JSON text. *)
Class JSON (P : Type) := {
  Unmarshal : bytes -> string + list P;
  Unmarshal_empty : exists msg, Unmarshal "" = inl msg
}.

Section Poll.

Context {P : Type} `{!JSON P}.

(** What a cycle does that can be seen from outside: requests, log lines,
    and the two steps on an item, [p.Download()] and [p.Process()], which
    are defined in another file of the repository and are kept as events. *)
Inductive event : Type :=
  | EvGet (url : string)
  | EvLog (line : logline)
  | EvDownload (p : P)
  | EvProcess (p : P).

(** The world of the poll loop: the answers of the network to the requests
    in the order they are made, the number of requests made so far, and
    what has happened so far. *)
Record World : Type := mkWorld {
  net : nat -> string -> response;
  sent : nat;
  trace : list event
}.

Definition emit (w : World) (e : event) : World :=
  mkWorld (net w) (sent w) (trace w ++ [e]).

Definition log (w : World) (line : logline) : World := emit w (EvLog line).

(** [http.Get(url)] *)
Definition http_Get (url : string) (w : World) : response * World :=
  (net w (sent w) url, mkWorld (net w) (S (sent w)) (trace w ++ [EvGet url])).

(** [get(url)] *)
Definition get (url : string) (w : World) : bytes * World :=
  let '(resp, w) := http_Get url w in
  match resp with
  | NetError => (""%string, log w (LogNoAccess url))
  | Response StatusCode Body =>
      if negb (StatusCode =? 200) then (""%string, log w (LogHTTPError StatusCode))
      else match Body with
           | None => (""%string, log w (LogNoRead url))
           | Some body => (body, w)
           end
  end.

Definition api_url : string := "https://pastebin.com/api_scraping.php?limit=100".

(** [scrape()] *)
Definition scrape (w : World) : World :=
  let w := log w LogChecking in
  let '(resp, w) := get api_url w in
  match Unmarshal resp with
  | inl msg => log (log (log w LogNoParse) (LogError msg)) (LogPayload resp)
  | inr pastes =>
      foldl (fun w p => emit (emit w (EvDownload p)) (EvProcess p)) w pastes
  end.

(** The items a trace has worked on. *)
Definition is_item_event (e : event) : bool :=
  match e with
  | EvDownload _ | EvProcess _ => true
  | _ => false
  end.

Definition items (t : list event) : list event := List.filter is_item_event t.

(** A fetch failure, in the words of the specification: a network error, a
    status other than 200, a body that cannot be read, or a payload that
    does not parse as the list of items. *)
Inductive fetch_failure : response -> Prop :=
  | fail_network : fetch_failure NetError
  | fail_status StatusCode Body :
      StatusCode <> 200 -> fetch_failure (Response StatusCode Body)
  | fail_body : fetch_failure (Response 200 None)
  | fail_payload body msg :
      Unmarshal body = inl msg -> fetch_failure (Response 200 (Some body)).

Lemma items_app (t u : list event) : items (t ++ u) = items t ++ items u.
Proof. apply List.filter_app. Qed.

Lemma items_logs (lines : list logline) : items (map EvLog lines) = [].
Proof. induction lines; simpl; auto. Qed.

(** A cycle that only wrote log lines after its request has worked on no
    item. *)
Lemma skipped_cycle (w w' : World) (lines : list logline) :
  LogNoParse ∈ lines ->
  trace w' = trace w ++ [EvLog LogChecking; EvGet api_url] ++ map EvLog lines ->
  sent w' = S (sent w) -> net w' = net w ->
  exists lines, LogNoParse ∈ lines /\
    trace w' = trace w ++ [EvLog LogChecking; EvGet api_url] ++ map EvLog lines /\
    sent w' = S (sent w) /\
    net w' = net w /\
    items (trace w') = items (trace w).
Proof.
  intros Hne Ht Hs Hn. exists lines. repeat (split; [assumption|]).
  rewrite Ht, !items_app, items_logs. simpl. apply app_nil_r.
Qed.

(** C10. When the fetch fails, in any of the four ways, [scrape] returns
    with the failure in the log and nothing else done: after the opening
    line and the one request the trace has log lines only, the line that the
    list could not be parsed among them; one request was made, and no item
    was downloaded or processed. *)
Theorem scrape_fetch_failure (w : World) :
  fetch_failure (net w (sent w) api_url) ->
  exists lines, LogNoParse ∈ lines /\
    trace (scrape w)
      = trace w ++ [EvLog LogChecking; EvGet api_url] ++ map EvLog lines /\
    sent (scrape w) = S (sent w) /\
    net (scrape w) = net w /\
    items (trace (scrape w)) = items (trace w).
Proof.
  intros Hf. destruct Unmarshal_empty as (msg0 & Hempty).
  unfold scrape, get, http_Get. cbn [net sent trace log emit].
  inversion Hf as [Hr|st bd Hst Hr| Hr |bd msg Hmsg Hr].
  - rewrite Hempty.
    apply skipped_cycle with
      [LogNoAccess api_url; LogNoParse; LogError msg0; LogPayload ""%string];
      [set_solver|cbn; now rewrite <- !app_assoc|reflexivity|reflexivity].
  - assert ((st =? 200) = false) as -> by lia. cbn [negb]. rewrite Hempty.
    apply skipped_cycle with
      [LogHTTPError st; LogNoParse; LogError msg0; LogPayload ""%string];
      [set_solver|cbn; now rewrite <- !app_assoc|reflexivity|reflexivity].
  - cbn. rewrite Hempty.
    apply skipped_cycle with
      [LogNoRead api_url; LogNoParse; LogError msg0; LogPayload ""%string];
      [set_solver|cbn; now rewrite <- !app_assoc|reflexivity|reflexivity].
  - cbn. rewrite Hmsg.
    apply skipped_cycle with [LogNoParse; LogError msg; LogPayload bd];
      [set_solver|cbn; now rewrite <- !app_assoc|reflexivity|reflexivity].
Qed.

End Poll.

(** A small instance of the payload format: three payloads are lists of
    items, every other input is an error. *)
Definition table_Unmarshal (b : bytes) : string + list string :=
  match b with
  | "[]"%string => inr []
  | "[1]"%string => inr ["1"%string]
  | "[1,2]"%string => inr ["1"%string; "2"%string]
  | _ => inl "unexpected input"%string
  end.

#[global] Instance table_JSON : JSON string :=
  {| Unmarshal := table_Unmarshal;
     Unmarshal_empty := ex_intro _ "unexpected input"%string eq_refl |}.

(** A network that answers every request with status 404. *)
Definition world_404 : World (P:=string) :=
  mkWorld (fun _ _ => Response 404 (Some "[1,2]"%string)) 0 [].

(** A network that answers every request with a list of two items. *)
Definition world_two : World (P:=string) :=
  mkWorld (fun _ _ => Response 200 (Some "[1,2]"%string)) 0 [].

Example scrape_two_items :
  trace (scrape world_two)
    = [EvLog LogChecking; EvGet api_url;
       EvDownload "1"%string; EvProcess "1"%string;
       EvDownload "2"%string; EvProcess "2"%string].
Proof. reflexivity. Qed.

Example scrape_404 :
  trace (scrape world_404)
    = [EvLog LogChecking; EvGet api_url; EvLog (LogHTTPError 404);
       EvLog LogNoParse; EvLog (LogError "unexpected input");
       EvLog (LogPayload "")].
Proof. reflexivity. Qed.

Lemma scrape_fetch_failure_witness :
  fetch_failure (net world_404 (sent world_404) api_url) /\
  exists lines, LogNoParse ∈ lines /\
    trace (scrape world_404)
      = trace world_404 ++ [EvLog LogChecking; EvGet api_url] ++ map EvLog lines /\
    sent (scrape world_404) = S (sent world_404) /\
    net (scrape world_404) = net world_404 /\
    items (trace (scrape world_404)) = items (trace world_404).
Proof.
  assert (fetch_failure (net world_404 (sent world_404) api_url)) as Hf.
  { simpl. apply fail_status. lia. }
  split; [exact Hf|]. exact (scrape_fetch_failure world_404 Hf).
Defined.

(** ** The store as a map of maps

    What a call does to the buckets of an open store, written on the maps
    alone: no transaction, no cursor. [run] is shown to do just this. *)

Section MapView.

Context {V : Type} `{!Gob V}.

Implicit Types (kvs : KVStore) (bucket key : string) (v : V)
  (root : gmap bytes (gmap bytes bytes)).

(** The engine's checks on a key and on a value, as one test each. *)
Definition key_ok (key : string) : bool :=
  negb (len key =? 0) && negb (len key >? bolt.MaxKeySize).

Definition value_ok (buf : bytes) : bool :=
  negb (len buf >? bolt.MaxValueSize).

Definition ensure_bucket bucket root : gmap bytes (gmap bytes bytes) :=
  match root !! bucket with
  | Some _ => root
  | None => <[bucket := ∅]> root
  end.

Definition root_after (c : call (V:=V)) root : gmap bytes (gmap bytes bytes) :=
  match c with
  | CallAddBucket b => if decide (b = ""%string) then root else ensure_bucket b root
  | CallPut b k None => root
  | CallPut b k (Some v) =>
      if decide (b = ""%string) then root
      else match gob_encode v with
           | Encoded buf =>
               if key_ok k && value_ok buf
               then <[b := <[k := buf]> (default ∅ (root !! b))]> root
               else ensure_bucket b root
           | EncodeFails | EncodePanics => ensure_bucket b root
           end
  | CallDelete b k => alter (delete k) b root
  | CallClose => root
  end.

(** The entry of a key in a map of buckets. *)
Definition entry root bucket key : option bytes := root !! bucket ≫= (.!! key).

Lemma key_ok_valid key : key_ok key = true <-> valid_key key.
Proof.
  unfold key_ok, valid_key, len. rewrite andb_true_iff, !negb_true_iff, Z.eqb_neq.
  destruct (Z.gtb_spec (Z.of_nat (String.length key)) bolt.MaxKeySize) as [G|G];
    split; intros K; try lia; split; try lia; try reflexivity.
Qed.

Lemma value_ok_valid (buf : bytes) : value_ok buf = true <-> valid_value buf.
Proof.
  unfold value_ok, valid_value. rewrite negb_true_iff.
  destruct (Z.gtb_spec (len buf) bolt.MaxValueSize) as [G|G]; split; intros K;
    try lia; try reflexivity; discriminate.
Qed.

Lemma Delete_closed kvs bucket key :
  bolt.opened (db kvs) = false ->
  Delete kvs bucket key = (Returns (Some ErrDatabaseNotOpen), kvs).
Proof.
  intros Hc. unfold Delete, bolt.Update. rewrite Hc. simpl. now rewrite KVStore_eta.
Qed.

Lemma alter_absent {A : Type} (f : A -> A) (m : gmap bytes A) (i : bytes) :
  m !! i = None -> alter f i m = m.
Proof.
  intros Hi. apply map_eq. intros j. rewrite lookup_alter.
  case_decide; subst; [now rewrite Hi|reflexivity].
Qed.

Lemma KVStore_open_eta kvs :
  is_open kvs -> kvs = mkKVStore (bolt.mkDB true (bolt.root (db kvs))).
Proof. intros Ho. now rewrite (DB_eta_open _ Ho), KVStore_eta. Qed.

(** On a closed store no call changes anything. *)
Lemma run_closed (c : call) kvs :
  bolt.opened (db kvs) = false -> run c kvs = kvs.
Proof.
  intros Hc. destruct c as [b|b k [v|]|b k|]; cbn [run].
  - now rewrite AddBucket_closed.
  - now rewrite Put_closed.
  - reflexivity.
  - now rewrite Delete_closed.
  - destruct kvs as [[o r]]. simpl in *. now subst o.
Qed.

(** On an open store a call does to the buckets what [root_after] says, and
    only [Close] closes the store. *)
Lemma run_open (c : call) kvs :
  is_open kvs ->
  run c kvs =
    mkKVStore (bolt.mkDB (match c with CallClose => false | _ => true end)
                         (root_after c (bolt.root (db kvs)))).
Proof.
  intros Ho. destruct c as [b|b k [v|]|b k|]; cbn [run root_after].
  - case_decide as Hn.
    + subst b. rewrite AddBucket_no_name by exact Ho. now apply KVStore_open_eta.
    + unfold ensure_bucket. destruct (bolt.root (db kvs) !! b) as [bk|] eqn:Hb.
      * rewrite (AddBucket_existing kvs b bk Ho Hn Hb). now apply KVStore_open_eta.
      * now rewrite (AddBucket_new kvs b Ho Hn Hb).
  - case_decide as Hn.
    + subst b. rewrite Put_no_bucket_name by exact Ho. now apply KVStore_open_eta.
    + destruct (Put_open kvs b k v Ho Hn) as (kvs1 & HA & Ho1 & Hb1 & Hoth & ->).
      assert (kvs1 = mkKVStore (bolt.mkDB true (ensure_bucket b (bolt.root (db kvs)))))
        as Hk1.
      { unfold ensure_bucket. destruct (bolt.root (db kvs) !! b) as [bk|] eqn:Hb.
        - rewrite (AddBucket_existing kvs b bk Ho Hn Hb) in HA.
          injection HA as <-. now apply KVStore_open_eta.
        - rewrite (AddBucket_new kvs b Ho Hn Hb) in HA. now injection HA as <-. }
      unfold key_ok, value_ok.
      destruct (gob_encode v) as [buf| |]; [|exact Hk1..].
      destruct (len k =? 0); [exact Hk1|].
      destruct (len k >? bolt.MaxKeySize); [exact Hk1|].
      destruct (len buf >? bolt.MaxValueSize); [exact Hk1|]. cbn.
      do 2 f_equal. rewrite Hk1. cbn. unfold ensure_bucket.
      destruct (bolt.root (db kvs) !! b); [reflexivity|apply insert_insert_eq].
  - now apply KVStore_open_eta.
  - destruct (bolt.root (db kvs) !! b) as [bk|] eqn:Hb.
    + destruct (bk !! k) as [y|] eqn:Hk.
      * rewrite (Delete_present kvs b k bk y Ho Hb Hk). cbn.
        now rewrite (alter_present _ _ _ _ Hb).
      * rewrite (Delete_absent kvs b k bk Ho Hb Hk).
        rewrite (alter_present _ _ _ _ Hb), delete_id by exact Hk.
        rewrite insert_id by exact Hb. now apply KVStore_open_eta.
    + rewrite (Delete_no_bucket kvs b k Ho Hb), alter_absent by exact Hb.
      now apply KVStore_open_eta.
  - reflexivity.
Qed.

End MapView.

Section MapViewFacts.

Context {V : Type} `{!Gob V}.

Implicit Types (kvs : KVStore) (bucket key : string) (v : V)
  (root : gmap bytes (gmap bytes bytes)).

(** A call that may write or remove the entry of [key] in [bucket]. *)
Definition writes_to (c : call (V:=V)) bucket key : bool :=
  match c with
  | CallPut b k (Some _) | CallDelete b k => bool_decide (b = bucket /\ k = key)
  | _ => false
  end.

Definition is_close (c : call (V:=V)) : bool :=
  match c with
  | CallClose => true
  | _ => false
  end.

(** A sequence of calls, first to last. *)
Definition run_all (cs : list (call (V:=V))) kvs : KVStore :=
  foldl (fun s c => run c s) kvs cs.

Lemma entry_ensure_bucket b root bucket key :
  entry (ensure_bucket b root) bucket key = entry root bucket key.
Proof.
  unfold ensure_bucket, entry. destruct (root !! b) eqn:Hb; [reflexivity|].
  destruct (decide (bucket = b)) as [->|Hne].
  - rewrite lookup_insert_eq, Hb. simpl. apply lookup_empty.
  - now rewrite lookup_insert_ne by congruence.
Qed.

Lemma ensure_bucket_lookup b root :
  ensure_bucket b root !! b = Some (default ∅ (root !! b)).
Proof.
  unfold ensure_bucket. destruct (root !! b) eqn:Hb; [exact Hb|].
  apply lookup_insert_eq.
Qed.

Lemma ensure_bucket_keeps b root bucket :
  is_Some (root !! bucket) -> is_Some (ensure_bucket b root !! bucket).
Proof.
  unfold ensure_bucket. destruct (root !! b) eqn:Hb; [auto|].
  intros Hs. destruct (decide (bucket = b)) as [->|Hne].
  - rewrite lookup_insert_eq. eauto.
  - now rewrite lookup_insert_ne by congruence.
Qed.

Lemma ensure_bucket_idem b root :
  ensure_bucket b (ensure_bucket b root) = ensure_bucket b root.
Proof.
  unfold ensure_bucket at 1. now rewrite ensure_bucket_lookup.
Qed.

Lemma entry_default root bucket key :
  default ∅ (root !! bucket) !! key = entry root bucket key.
Proof.
  unfold entry. destruct (root !! bucket); simpl; [reflexivity|apply lookup_empty].
Qed.

(** A call leaves alone the entries it does not write to. *)
Lemma entry_root_after_other (c : call) root bucket key :
  writes_to c bucket key = false ->
  entry (root_after c root) bucket key = entry root bucket key.
Proof.
  destruct c as [b|b k [v|]|b k|]; cbn [writes_to root_after]; intros Hw;
    try reflexivity.
  - case_decide; [reflexivity|apply entry_ensure_bucket].
  - apply bool_decide_eq_false in Hw.
    case_decide; [reflexivity|].
    destruct (gob_encode v) as [buf| |]; [|apply entry_ensure_bucket..].
    destruct (key_ok k && value_ok buf); [|apply entry_ensure_bucket].
    unfold entry at 1. destruct (decide (bucket = b)) as [->|Hne].
    + rewrite lookup_insert_eq. simpl.
      rewrite lookup_insert_ne by (intros ->; now apply Hw).
      apply entry_default.
    + now rewrite lookup_insert_ne by congruence.
  - apply bool_decide_eq_false in Hw.
    unfold entry. rewrite lookup_alter. case_decide as Hb; [|reflexivity].
    subst bucket. destruct (root !! b); simpl; [|reflexivity].
    apply lookup_delete_ne. intros ->. now apply Hw.
Qed.

(** No call removes a bucket. *)
Lemma root_after_keeps_bucket (c : call) root bucket :
  is_Some (root !! bucket) -> is_Some (root_after c root !! bucket).
Proof.
  intros Hs. destruct c as [b|b k [v|]|b k|]; cbn [root_after]; try exact Hs.
  - case_decide; [exact Hs|now apply ensure_bucket_keeps].
  - case_decide; [exact Hs|].
    destruct (gob_encode v) as [buf| |]; [|now apply ensure_bucket_keeps..].
    destruct (key_ok k && value_ok buf); [|now apply ensure_bucket_keeps].
    destruct (decide (bucket = b)) as [->|Hne].
    + rewrite lookup_insert_eq. eauto.
    + now rewrite lookup_insert_ne by congruence.
  - rewrite lookup_alter. case_decide; [|exact Hs]. subst.
    destruct Hs as [x ->]. simpl. eauto.
Qed.

(** An entry of the buckets after a call was there before, or is what a
    [Put] with a named bucket, an accepted key and an accepted value wrote. *)
Lemma entry_root_after_Some (c : call) root bucket key (x : bytes) :
  entry (root_after c root) bucket key = Some x ->
  entry root bucket key = Some x \/
  (bucket <> ""%string /\ key_ok key = true /\ value_ok x = true /\
   exists v, gob_encode v = Encoded x).
Proof.
  destruct (writes_to c bucket key) eqn:Hw.
  2:{ rewrite entry_root_after_other by exact Hw. auto. }
  destruct c as [b|b k [v|]|b k|]; cbn [writes_to] in Hw; try discriminate;
    apply bool_decide_eq_true in Hw as [-> ->]; cbn [root_after].
  - case_decide as Hn; [auto|].
    destruct (gob_encode v) as [buf| |] eqn:He;
      [|rewrite entry_ensure_bucket; auto..].
    destruct (key_ok key && value_ok buf) eqn:Hok;
      [|rewrite entry_ensure_bucket; auto].
    unfold entry at 1. rewrite lookup_insert_eq. simpl. rewrite lookup_insert_eq.
    intros [= <-]. apply andb_true_iff in Hok as [Hk Hv]. right. eauto 6.
  - unfold entry at 1. rewrite lookup_alter, decide_True by reflexivity.
    destruct (root !! bucket); simpl; [|discriminate].
    now rewrite lookup_delete_eq.
Qed.

Lemma stored_run_open (c : call) kvs bucket key :
  is_open kvs ->
  stored (run c kvs) bucket key = entry (root_after c (bolt.root (db kvs))) bucket key.
Proof. intros Ho. now rewrite (run_open c kvs Ho). Qed.

Lemma run_all_snoc (cs : list call) (c : call) kvs :
  run_all (cs ++ [c]) kvs = run c (run_all cs kvs).
Proof. unfold run_all. now rewrite foldl_app. Qed.

(** A store stays open as long as it is not closed. *)
Lemma run_keeps_open (c : call) kvs :
  is_close c = false -> is_open kvs -> is_open (run c kvs).
Proof.
  intros Hc Ho. rewrite (run_open c kvs Ho). now destruct c.
Qed.

Lemma run_keeps_bucket (c : call) kvs bucket :
  has_bucket kvs bucket -> has_bucket (run c kvs) bucket.
Proof.
  intros Hb. destruct (bolt.opened (db kvs)) eqn:Ho.
  - rewrite (run_open c kvs Ho). now apply root_after_keeps_bucket.
  - now rewrite run_closed.
Qed.

Lemma run_all_keeps_bucket (cs : list call) kvs bucket :
  has_bucket kvs bucket -> has_bucket (run_all cs kvs) bucket.
Proof.
  revert kvs. induction cs as [|c cs IH]; intros kvs Hb; [exact Hb|].
  apply IH. now apply run_keeps_bucket.
Qed.

End MapViewFacts.

(** ** Further properties of the typed store *)

Section StoreLaws.

Context {V : Type} `{!Gob V}.

Implicit Types (kvs : KVStore) (bucket key : string) (v : V).

Lemma Decode_returns (x : bytes) (d : option V) : (Decode x d).1 <> Panics.
Proof.
  unfold Decode. destruct d as [d|];
    [destruct (gob_decode x d)|destruct (gob_discard x)]; discriminate.
Qed.

(** A nil error for a value that encodes means: the store was open, the
    bucket named, and the key and the encoding accepted by the engine. *)
Lemma Put_nil_inv kvs bucket key v (buf : bytes) :
  (Put kvs bucket key (Some v)).1 = Returns None -> gob_encode v = Encoded buf ->
  is_open kvs /\ bucket <> ""%string /\ key_ok key = true /\ value_ok buf = true.
Proof.
  intros HP He. destruct (bolt.opened (db kvs)) eqn:Ho.
  2:{ now rewrite Put_closed in HP. }
  destruct (decide (bucket = ""%string)) as [->|Hn].
  { now rewrite Put_no_bucket_name in HP. }
  destruct (Put_open kvs bucket key v Ho Hn) as (kvs1 & _ & _ & _ & _ & E).
  rewrite E, He in HP. unfold key_ok, value_ok.
  destruct (len key =? 0); [discriminate|].
  destruct (len key >? bolt.MaxKeySize); [discriminate|].
  destruct (len buf >? bolt.MaxValueSize); [discriminate|]. auto.
Qed.

(** X1. [Get] is an exact-match lookup: with the store open and the bucket
    there, it decodes the value stored under the very key asked for and
    returns [ErrNotFound] when that key has no entry, whatever other keys
    the bucket holds; on a missing bucket it panics and on a closed store it
    returns the engine's error. *)
Theorem Get_exact_lookup kvs bucket key (d : option V) :
  Get kvs bucket key d =
    if bolt.opened (db kvs) then
      match bolt.root (db kvs) !! bucket with
      | None => (Panics, d)
      | Some bk =>
          match bk !! key with
          | None => (Returns (Some ErrNotFound), d)
          | Some x => Decode x d
          end
      end
    else (Returns (Some ErrDatabaseNotOpen), d).
Proof.
  destruct (bolt.opened (db kvs)) eqn:Ho; [|now apply Get_closed].
  destruct (bolt.root (db kvs) !! bucket) as [bk|] eqn:Hb;
    [|now apply Get_no_bucket].
  destruct (bk !! key) as [x|] eqn:Hk.
  - now apply Get_present with bk.
  - now apply Get_absent with bk.
Qed.

(** X2. [Delete] removes the entry of the very key asked for and nothing
    else: the bucket stays (even when it becomes empty) with its other keys,
    and the other buckets are untouched; a key with no entry gives
    [ErrNotFound] and an unchanged store, a missing bucket a panic, a closed
    store the engine's error. *)
Theorem Delete_exact kvs bucket key :
  Delete kvs bucket key =
    if bolt.opened (db kvs) then
      match bolt.root (db kvs) !! bucket with
      | None => (Panics, kvs)
      | Some bk =>
          match bk !! key with
          | None => (Returns (Some ErrNotFound), kvs)
          | Some _ =>
              (Returns None,
               mkKVStore (bolt.mkDB true
                 (<[bucket := delete key bk]> (bolt.root (db kvs)))))
          end
      end
    else (Returns (Some ErrDatabaseNotOpen), kvs).
Proof.
  destruct (bolt.opened (db kvs)) eqn:Ho; [|now apply Delete_closed].
  destruct (bolt.root (db kvs) !! bucket) as [bk|] eqn:Hb;
    [|now apply Delete_no_bucket].
  destruct (bk !! key) as [x|] eqn:Hk.
  - now apply Delete_present with x.
  - now apply Delete_absent with bk.
Qed.

(** X3. [AddBucket] is idempotent and harmless: a second call with the same
    name returns what the first returned and leaves the store of the first;
    no entry changes, no bucket is lost, and after a nil error the bucket
    exists. *)
Theorem AddBucket_idempotent kvs bucket :
  AddBucket (AddBucket kvs bucket).2 bucket = AddBucket kvs bucket /\
  (forall b' k', stored (AddBucket kvs bucket).2 b' k' = stored kvs b' k') /\
  (forall b', has_bucket kvs b' -> has_bucket (AddBucket kvs bucket).2 b') /\
  ((AddBucket kvs bucket).1 = Returns None ->
   has_bucket (AddBucket kvs bucket).2 bucket).
Proof.
  destruct (bolt.opened (db kvs)) eqn:Ho.
  2:{ rewrite !(AddBucket_closed kvs bucket Ho). simpl.
      rewrite (AddBucket_closed kvs bucket Ho). repeat split; auto. discriminate. }
  destruct (decide (bucket = ""%string)) as [->|Hn].
  { rewrite !(AddBucket_no_name kvs Ho). simpl.
    rewrite (AddBucket_no_name kvs Ho). repeat split; auto. discriminate. }
  destruct (AddBucket_ok kvs bucket Ho Hn) as (kvs1 & HA & Ho1 & Hb1 & Hoth).
  rewrite HA. simpl. repeat split.
  - now rewrite (AddBucket_existing kvs1 bucket _ Ho1 Hn Hb1).
  - intros b' k'. now apply stored_AddBucket_ok with bucket.
  - intros b' Hb'. unfold has_bucket.
    destruct (decide (b' = bucket)) as [->|Hne]; [rewrite Hb1; eauto|].
    now rewrite Hoth.
  - intros _. unfold has_bucket. rewrite Hb1. eauto.
Qed.

(** X4. After [Close] every operation that reaches the engine fails with the
    engine's error and changes nothing; [Put] of the nil value is still
    refused with [ErrBadValue]; [Close] itself returns nil, keeps the buckets
    and may be repeated. *)
Theorem Close_then_fail kvs bucket key v (d : option V) :
  let c := (Close kvs).2 in
  (Close kvs).1 = None /\
  bolt.root (db c) = bolt.root (db kvs) /\
  AddBucket c bucket = (Returns (Some ErrDatabaseNotOpen), c) /\
  Put c bucket key (Some v) = (Returns (Some ErrDatabaseNotOpen), c) /\
  Put (V:=V) c bucket key None = (Returns (Some ErrBadValue), c) /\
  Get c bucket key d = (Returns (Some ErrDatabaseNotOpen), d) /\
  Delete c bucket key = (Returns (Some ErrDatabaseNotOpen), c) /\
  Close c = (None, c).
Proof.
  intros c. assert (bolt.opened (db c) = false) as Hc by reflexivity.
  split; [reflexivity|]. split; [reflexivity|].
  split; [now apply AddBucket_closed|]. split; [now apply Put_closed|].
  split; [reflexivity|]. split; [now apply Get_closed|].
  split; [now apply Delete_closed|]. reflexivity.
Qed.


(** X6. [Put] panics in one case only: the store is open, the bucket named,
    and the encoder panics on the value. In particular it never panics on the
    bucket, which it makes before it uses it. And whenever [Put] does not
    return nil (it returns an error, or it panics), no entry of the store has
    changed. *)
Theorem Put_error_no_write kvs bucket key (value : option V) :
  ((Put kvs bucket key value).1 = Panics <->
   is_open kvs /\ bucket <> ""%string /\
   exists v, value = Some v /\ gob_encode v = EncodePanics) /\
  ((Put kvs bucket key value).1 <> Returns None ->
   forall b' k', stored (Put kvs bucket key value).2 b' k' = stored kvs b' k').
Proof.
  destruct value as [v|].
  2:{ split; [|reflexivity]. split; [discriminate|]. now intros (_ & _ & v & ? & _). }
  destruct (bolt.opened (db kvs)) eqn:Ho.
  2:{ rewrite Put_closed by exact Ho. split; [|reflexivity].
      split; [discriminate|]. unfold is_open. rewrite Ho. now intros (? & _). }
  destruct (decide (bucket = ""%string)) as [->|Hn].
  { rewrite Put_no_bucket_name by exact Ho. split; [|reflexivity].
    split; [discriminate|]. now intros (_ & ? & _). }
  destruct (Put_open kvs bucket key v Ho Hn) as (kvs1 & _ & _ & Hb1 & Hoth & ->).
  pose proof (fun b' k' => stored_AddBucket_ok kvs kvs1 bucket b' k' Hb1 Hoth) as Hs.
  destruct (gob_encode v) as [buf| |] eqn:He.
  - split.
    + split.
      * destruct (len key =? 0); [discriminate|].
        destruct (len key >? bolt.MaxKeySize); [discriminate|].
        destruct (len buf >? bolt.MaxValueSize); discriminate.
      * intros (_ & _ & v' & [= <-] & He'). congruence.
    + destruct (len key =? 0); [intros _; exact Hs|].
      destruct (len key >? bolt.MaxKeySize); [intros _; exact Hs|].
      destruct (len buf >? bolt.MaxValueSize); [intros _; exact Hs|].
      intros Hne. now contradict Hne.
  - split; [|intros _; exact Hs]. split; [discriminate|].
    intros (_ & _ & v' & [= <-] & He'). congruence.
  - split; [|intros _; exact Hs]. split; [|reflexivity].
    intros _. split; [exact Ho|]. split; [exact Hn|]. eauto.
Qed.

End StoreLaws.

Section StoreComposition.

Context {V : Type} `{!Gob V}.

Implicit Types (kvs : KVStore) (bucket key : string) (v : V).



(** X8. [Delete] undoes [Put]: when the bucket exists and has no entry for
    the key, a [Put] of a value that encodes, if it returns nil, followed by
    [Delete] of the key returns nil and gives back the store as it was. *)
Theorem Put_Delete_restores kvs bucket key v (buf : bytes) (bk : gmap bytes bytes) :
  bolt.root (db kvs) !! bucket = Some bk -> bk !! key = None ->
  (Put kvs bucket key (Some v)).1 = Returns None -> gob_encode v = Encoded buf ->
  Delete (Put kvs bucket key (Some v)).2 bucket key = (Returns None, kvs).
Proof.
  intros Hb Hkey HP He.
  destruct (Put_nil_inv kvs bucket key v buf HP He) as (Ho & Hn & Hk & Hv).
  change (Put kvs bucket key (Some v)).2 with (run (CallPut bucket key (Some v)) kvs).
  rewrite (run_open _ kvs Ho). cbn [root_after].
  rewrite decide_False by exact Hn. rewrite He, Hk, Hv, Hb. cbn [andb default].
  erewrite Delete_present;
    [|reflexivity|apply lookup_insert_eq|apply lookup_insert_eq].
  cbn [db bolt.root]. rewrite insert_insert_eq, delete_insert_id by exact Hkey.
  rewrite insert_id by exact Hb. f_equal. symmetry. now apply KVStore_open_eta.
Qed.

Lemma root_after_Put_idem bucket key (value : option V)
    (root : gmap bytes (gmap bytes bytes)) :
  root_after (CallPut bucket key value) (root_after (CallPut bucket key value) root)
    = root_after (CallPut bucket key value) root.
Proof.
  destruct value as [v|]; cbn [root_after]; [|reflexivity].
  case_decide; [reflexivity|].
  destruct (gob_encode v) as [buf| |]; [|apply ensure_bucket_idem..].
  destruct (key_ok key && value_ok buf); [|apply ensure_bucket_idem].
  rewrite lookup_insert_eq. cbn [default from_option id].
  now rewrite !insert_insert_eq.
Qed.

(** X9. [Put] is idempotent: repeating a [Put] with the same bucket, key and
    value returns what the first call returned and leaves the store of the
    first call, whether the call wrote, was refused, or did nothing. *)
Theorem Put_idempotent kvs bucket key (value : option V) :
  Put (Put kvs bucket key value).2 bucket key value = Put kvs bucket key value.
Proof.
  destruct value as [v|]; [|reflexivity].
  destruct (bolt.opened (db kvs)) eqn:Ho.
  2:{ rewrite (Put_closed kvs bucket key v Ho). simpl. now apply Put_closed. }
  destruct (decide (bucket = ""%string)) as [->|Hn].
  { rewrite (Put_no_bucket_name kvs key v Ho). simpl. now apply Put_no_bucket_name. }
  set (c := CallPut bucket key (Some v)).
  assert (is_open (run c kvs)) as Ho1 by now apply run_keeps_open.
  assert (run c (run c kvs) = run c kvs) as Hstore.
  { rewrite (run_open c (run c kvs) Ho1), (run_open c kvs Ho). cbn [db bolt.root].
    subst c. now rewrite root_after_Put_idem. }
  subst c. cbn [run] in *.
  destruct (Put_open kvs bucket key v Ho Hn) as (kvs1 & _ & _ & _ & _ & E1).
  destruct (Put_open _ bucket key v Ho1 Hn) as (kvs2 & _ & _ & _ & _ & E2).
  rewrite (surjective_pairing (Put (Put kvs bucket key (Some v)).2 bucket key (Some v))).
  rewrite (surjective_pairing (Put kvs bucket key (Some v))) at 3.
  rewrite Hstore. f_equal. rewrite E2, E1.
  destruct (gob_encode v) as [buf| |]; [|reflexivity..].
  destruct (len key =? 0); [reflexivity|].
  destruct (len key >? bolt.MaxKeySize); [reflexivity|].
  destruct (len buf >? bolt.MaxValueSize); reflexivity.
Qed.

(** X10. Every store a program can build has named buckets only, and every
    entry in it has a key the engine accepts (not empty, at most 32768
    bytes) and a value that was written by the encoder and fits the engine's
    value size. *)
Theorem reachable_entries_valid kvs bucket key (x : bytes) :
  reachable (V:=V) kvs -> stored kvs bucket key = Some x ->
  bucket <> ""%string /\ valid_key key /\ valid_value x /\
  exists v : V, gob_encode v = Encoded x.
Proof.
  intros Hr. revert bucket key x.
  induction Hr as [|c kvs _ IH]; intros bucket key x Hs.
  - unfold stored in Hs. simpl in Hs. now rewrite lookup_empty in Hs.
  - destruct (bolt.opened (db kvs)) eqn:Ho.
    + rewrite stored_run_open in Hs by exact Ho.
      apply entry_root_after_Some in Hs as [Hs|(Hn & Hk & Hv & Hx)].
      * now apply IH.
      * apply key_ok_valid in Hk. apply value_ok_valid in Hv. auto.
    + rewrite run_closed in Hs by exact Ho. now apply IH.
Qed.

(** X11. A bucket is never lost: once a bucket exists, it exists after any
    sequence of calls, and [Get] and [Delete] on it never panic. *)
Theorem bucket_never_lost kvs bucket (cs : list call) key (d : option V) :
  has_bucket kvs bucket ->
  has_bucket (run_all cs kvs) bucket /\
  (Get (run_all cs kvs) bucket key d).1 <> Panics /\
  (Delete (run_all cs kvs) bucket key).1 <> Panics.
Proof.
  intros Hb. apply (run_all_keeps_bucket cs) in Hb.
  split; [exact Hb|]. destruct Hb as [bk Hb].
  destruct (bolt.opened (db (run_all cs kvs))) eqn:Ho.
  - destruct (bk !! key) as [x|] eqn:Hk.
    + rewrite (Get_present _ bucket key d bk x Ho Hb Hk).
      rewrite (Delete_present _ bucket key bk x Ho Hb Hk).
      split; [apply Decode_returns|discriminate].
    + rewrite (Get_absent _ bucket key d bk Ho Hb Hk).
      rewrite (Delete_absent _ bucket key bk Ho Hb Hk).
      split; discriminate.
  - rewrite (Get_closed _ bucket key d Ho), (Delete_closed _ bucket key Ho).
    split; discriminate.
Qed.

End StoreComposition.



Lemma Put_Delete_restores_witness :
  let kvs := (AddBucket NewKVStore "p").2 in
  bolt.root (db kvs) !! "p"%string = Some ∅ /\
  (∅ : gmap bytes bytes) !! "x"%string = None /\
  (Put kvs "p" "x" (Some (GBool true))).1 = Returns None /\
  gob_encode (GBool true) = Encoded "b1"%string /\
  Delete (Put kvs "p" "x" (Some (GBool true))).2 "p" "x" = (Returns None, kvs).
Proof.
  intros kvs.
  assert (bolt.root (db kvs) !! "p"%string = Some ∅) as Hb by (vm_compute; reflexivity).
  assert ((∅ : gmap bytes bytes) !! "x"%string = None) as Hk by reflexivity.
  assert ((Put kvs "p" "x" (Some (GBool true))).1 = Returns None) as HP
    by (vm_compute; reflexivity).
  assert (gob_encode (GBool true) = Encoded "b1"%string) as He by reflexivity.
  repeat (split; [assumption|]).
  exact (Put_Delete_restores kvs "p" "x" (GBool true) "b1" ∅ Hb Hk HP He).
Defined.

Lemma reachable_entries_valid_witness :
  let kvs := run (CallPut "p" "x" (Some (GBool true))) NewKVStore in
  reachable kvs /\ stored kvs "p" "x" = Some "b1"%string /\
  "p"%string <> ""%string /\ valid_key "x" /\ valid_value "b1" /\
  exists v : gval, gob_encode v = Encoded "b1"%string.
Proof.
  intros kvs.
  assert (reachable kvs) as Hr by (apply reachable_run, reachable_new).
  assert (stored kvs "p" "x" = Some "b1"%string) as Hs by (vm_compute; reflexivity).
  repeat (split; [assumption|]).
  exact (reachable_entries_valid kvs "p" "x" "b1" Hr Hs).
Defined.

Lemma bucket_never_lost_witness :
  let kvs := (AddBucket NewKVStore "p").2 in
  let cs := [CallDelete "p" "x"; CallPut "p" "" (Some (GBool true)); CallClose] in
  has_bucket kvs "p" /\
  has_bucket (run_all cs kvs) "p" /\
  (Get (run_all cs kvs) "p" "x" (Some GFunc)).1 <> Panics /\
  (Delete (run_all cs kvs) "p" "x").1 <> Panics.
Proof.
  intros kvs cs.
  assert (has_bucket kvs "p") as Hb by (vm_compute; eauto).
  split; [exact Hb|].
  exact (bucket_never_lost kvs "p" cs "x" (Some GFunc) Hb).
Defined.

(** ** Further properties of the dedup cache and of the poll cycle *)

Lemma cleanKeys_lookup (now : time.Time) (conf : Config) (key : string) :
  keys (cleanKeys now conf) !! key
    = evict_record now (maxTime conf) (keys conf !! key).
Proof.
  unfold cleanKeys. simpl. rewrite clean_range_lookup.
  case_decide as Hin; [reflexivity|].
  destruct (keys conf !! key) as [t|] eqn:Hk; [|reflexivity].
  exfalso. apply Hin. apply list_elem_of_fmap. exists (key, t).
  split; [reflexivity|]. now apply elem_of_map_to_list.
Qed.

Lemma Config_eq (c1 c2 : Config) :
  keys c1 = keys c2 -> maxTime c1 = maxTime c2 -> sleep c1 = sleep c2 -> c1 = c2.
Proof. destruct c1, c2. simpl. now intros -> -> ->. Qed.

(** The age of a record grows with the time of the pass. *)
Lemma age_mono (now now' t : time.Time) : now <= now' -> age now t <= age now' t.
Proof.
  unfold age, time.Sub, time.maxDuration, time.minDuration. intros H.
  destruct (Z.gtb_spec (now - t) (2 ^ 63 - 1)), (Z.gtb_spec (now' - t) (2 ^ 63 - 1)),
    (Z.ltb_spec (now - t) (- 2 ^ 63)), (Z.ltb_spec (now' - t) (- 2 ^ 63)); lia.
Qed.

Lemma age_le_max (now t : time.Time) : age now t <= time.maxDuration.
Proof.
  unfold age, time.Sub, time.maxDuration, time.minDuration.
  destruct (Z.gtb_spec (now - t) (2 ^ 63 - 1)), (Z.ltb_spec (now - t) (- 2 ^ 63)); lia.
Qed.

(** X12. After an eviction pass no record is new, and every record left has
    an age within the maximum age. *)
Theorem cleanKeys_leaves_fresh (now : time.Time) (conf : Config) :
  keys (cleanKeys now conf) ⊆ keys conf /\
  map_Forall (fun _ t => age now t <= maxTime conf) (keys (cleanKeys now conf)).
Proof.
  split.
  - apply map_subseteq_spec. intros key t. rewrite cleanKeys_lookup.
    destruct (keys conf !! key) as [u|]; simpl; [|discriminate].
    destruct (age now u >? maxTime conf); [discriminate|]. auto.
  - intros key t. rewrite cleanKeys_lookup.
    destruct (keys conf !! key) as [u|]; simpl; [|discriminate].
    destruct (Z.gtb_spec (age now u) (maxTime conf)); [discriminate|].
    intros [= <-]. assumption.
Qed.

(** X13. Two passes are one: a pass followed by a pass at the same or a
    later time leaves what the later pass alone leaves. In particular a pass
    repeated at the same time changes nothing more. *)
Theorem cleanKeys_twice (now now' : time.Time) (conf : Config) :
  now <= now' ->
  cleanKeys now' (cleanKeys now conf) = cleanKeys now' conf.
Proof.
  intros Hle. apply Config_eq; try reflexivity.
  apply map_eq. intros key. rewrite !cleanKeys_lookup. cbn [maxTime cleanKeys].
  destruct (keys conf !! key) as [t|]; simpl; [|reflexivity].
  destruct (Z.gtb_spec (age now t) (maxTime conf)) as [Hold|Hfresh];
    [|reflexivity].
  simpl. pose proof (age_mono now now' t Hle).
  destruct (Z.gtb_spec (age now' t) (maxTime conf)); [reflexivity|lia].
Qed.

(** X14. The order in which the loop meets the keys does not matter: over
    any order that has every key of the map (also with repeats and with keys
    that are not in the map), the loop leaves the same records. *)
Theorem clean_range_any_order (now : time.Time) (conf : Config) (order : list string) :
  (forall key, is_Some (keys conf !! key) -> key ∈ order) ->
  clean_range now (maxTime conf) order (keys conf) = keys (cleanKeys now conf).
Proof.
  intros Hall. apply map_eq. intros key.
  rewrite clean_range_lookup, cleanKeys_lookup.
  case_decide as Hin; [reflexivity|].
  destruct (keys conf !! key) as [t|] eqn:Hk; [|reflexivity].
  exfalso. apply Hin, Hall. eauto.
Qed.

(** X15. With the largest duration as maximum age no record is ever
    evicted, however old: no age is above the largest duration. *)
Theorem cleanKeys_max_retention (now : time.Time) (m : gmap string time.Time)
    (sl : time.Duration) :
  cleanKeys now (mkConfig m time.maxDuration sl) = mkConfig m time.maxDuration sl.
Proof.
  apply Config_eq; try reflexivity. apply map_eq. intros key.
  rewrite cleanKeys_lookup. cbn [keys maxTime].
  destruct (m !! key) as [t|]; simpl; [|reflexivity].
  pose proof (age_le_max now t).
  destruct (Z.gtb_spec (age now t) time.maxDuration); [lia|reflexivity].
Qed.

Lemma cleanKeys_twice_witness :
  let conf := mkConfig {[ "a"%string := 0; "b"%string := 8 ]} 10 60 in
  11 <= 19 /\
  cleanKeys 19 (cleanKeys 11 conf) = cleanKeys 19 conf /\
  keys (cleanKeys 19 conf) !! "a"%string = None /\
  keys (cleanKeys 19 conf) !! "b"%string = None /\
  keys (cleanKeys 11 conf) !! "b"%string = Some 8.
Proof.
  intros conf. assert (11 <= 19) as Hle by lia.
  split; [exact Hle|]. split; [exact (cleanKeys_twice 11 19 conf Hle)|].
  rewrite !cleanKeys_lookup. repeat split.
Defined.

Lemma clean_range_any_order_witness :
  let conf := mkConfig {[ "a"%string := 0; "b"%string := 8 ]} 10 60 in
  let order := ["b"; "zz"; "a"; "b"]%string in
  (forall key, is_Some (keys conf !! key) -> key ∈ order) /\
  clean_range 11 (maxTime conf) order (keys conf) = keys (cleanKeys 11 conf).
Proof.
  intros conf order.
  assert (forall key, is_Some (keys conf !! key) -> key ∈ order) as Hall.
  { intros key [t Ht]. subst conf order. cbn [keys] in Ht.
    apply lookup_insert_Some in Ht as [[<- _]|[_ Ht]]; [set_solver|].
    apply lookup_singleton_Some in Ht as [<- _]. set_solver. }
  split; [exact Hall|]. exact (clean_range_any_order 11 conf order Hall).
Defined.

Section PollLaws.

Context {P : Type} `{!JSON P}.

Implicit Types (w : World (P:=P)) (url : string).

(** The events of working on a list of items: each item is downloaded and
    then processed, in the order of the list. *)
Definition item_events (pastes : list P) : list (event (P:=P)) :=
  flat_map (fun p => [EvDownload p; EvProcess p]) pastes.

Lemma range_pastes w (pastes : list P) :
  foldl (fun w p => emit (emit w (EvDownload p)) (EvProcess p)) w pastes
    = mkWorld (net w) (sent w) (trace w ++ item_events pastes).
Proof.
  revert w. induction pastes as [|p pastes IH]; intros w; simpl.
  - rewrite app_nil_r. now destruct w.
  - rewrite IH. unfold emit. simpl. now rewrite <- !app_assoc.
Qed.

(** X16. [get] makes one request and hands back the body only of an answer
    with status 200 whose body could be read, writing nothing to the log
    then; for every other answer it hands back the empty byte sequence and
    writes one line to the log. *)
Theorem get_result url w :
  sent (get url w).2 = S (sent w) /\
  net (get url w).2 = net w /\
  (forall body, net w (sent w) url = Response 200 (Some body) ->
     get url w = (body, mkWorld (net w) (S (sent w)) (trace w ++ [EvGet url]))) /\
  ((forall body, net w (sent w) url <> Response 200 (Some body)) ->
     (get url w).1 = ""%string /\
     exists line, trace (get url w).2 = trace w ++ [EvGet url; EvLog line]).
Proof.
  unfold get, http_Get.
  destruct (net w (sent w) url) as [|st [body|]] eqn:Hr.
  - repeat split; try discriminate.
    exists (LogNoAccess url). cbn. now rewrite <- app_assoc.
  - destruct (Z.eqb_spec st 200) as [->|Hst]; cbn [negb].
    + repeat split; try (intros b [= <-]; reflexivity);
        now destruct (H body).
    + repeat split; try (intros b [= ? ?]; contradiction).
      exists (LogHTTPError st). cbn. now rewrite <- app_assoc.
  - destruct (Z.eqb_spec st 200) as [->|Hst]; cbn [negb].
    + repeat split; try discriminate.
      exists (LogNoRead url). cbn. now rewrite <- app_assoc.
    + repeat split; try discriminate.
      exists (LogHTTPError st). cbn. now rewrite <- app_assoc.
Qed.

(** X17. When the fetch succeeds, [scrape] writes the opening line, makes its
    request, and then works on every item of the payload, each one downloaded
    and then processed, in the order of the payload (the two steps on an item
    are taken to return); no failure is logged. *)
Theorem scrape_processes_in_order w (body : bytes) (pastes : list P) :
  net w (sent w) api_url = Response 200 (Some body) ->
  Unmarshal body = inr pastes ->
  trace (scrape w)
    = trace w ++ [EvLog LogChecking; EvGet api_url] ++ item_events pastes.
Proof.
  intros Hr Hp. unfold scrape, get, http_Get. cbn [net sent trace log emit].
  rewrite Hr. cbn [negb Z.eqb Pos.eqb]. rewrite Hp, range_pastes.
  cbn [net sent trace]. now rewrite <- !app_assoc.
Qed.

End PollLaws.

Lemma scrape_processes_in_order_witness :
  net world_two (sent world_two) api_url = Response 200 (Some "[1,2]"%string) /\
  Unmarshal "[1,2]" = inr ["1"%string; "2"%string] /\
  trace (scrape world_two) =
    [EvLog LogChecking; EvGet api_url;
     EvDownload "1"%string; EvProcess "1"%string;
     EvDownload "2"%string; EvProcess "2"%string].
Proof.
  assert (net world_two (sent world_two) api_url = Response 200 (Some "[1,2]"%string))
    as Hr by reflexivity.
  assert (Unmarshal "[1,2]" = inr ["1"%string; "2"%string]) as Hp by reflexivity.
  repeat (split; [assumption|]).
  exact (scrape_processes_in_order world_two "[1,2]" ["1"%string; "2"%string] Hr Hp).
Defined.

Section PutBucket.

Context {V : Type} `{!Gob V}.

(** X18. On an open store and with a named bucket, [Put] of a value other
    than nil leaves the bucket in place whatever else happens: also when the
    key or the value is refused by the engine and when the value cannot be
    encoded. A [Get] on that bucket afterwards does not panic. *)
Theorem Put_makes_bucket (kvs : KVStore) (bucket key : string) (v : V)
    (k' : string) (d : option V) :
  is_open kvs -> bucket <> ""%string ->
  has_bucket (Put kvs bucket key (Some v)).2 bucket /\
  (Get (Put kvs bucket key (Some v)).2 bucket k' d).1 <> Panics.
Proof.
  intros Ho Hn.
  assert (has_bucket (Put kvs bucket key (Some v)).2 bucket) as Hb.
  { change (Put kvs bucket key (Some v)).2 with (run (CallPut bucket key (Some v)) kvs).
    rewrite (run_open _ kvs Ho). unfold has_bucket. cbn [db bolt.root root_after].
    rewrite decide_False by exact Hn.
    destruct (gob_encode v) as [buf| |];
      [destruct (key_ok key && value_ok buf)| |];
      rewrite ?ensure_bucket_lookup, ?lookup_insert_eq; eauto. }
  split; [exact Hb|].
  assert (is_open (Put kvs bucket key (Some v)).2) as Ho' by now apply Put_keeps_open.
  destruct Hb as [bk Hb]. destruct (bk !! k') as [x|] eqn:Hk.
  - rewrite (Get_present _ bucket k' d bk x Ho' Hb Hk). apply Decode_returns.
  - now rewrite (Get_absent _ bucket k' d bk Ho' Hb Hk).
Qed.

End PutBucket.

Lemma Put_makes_bucket_witness :
  is_open NewKVStore /\ "p"%string <> ""%string /\
  (Put NewKVStore "p" "" (Some (GBool true))).1 = Returns (Some ErrKeyRequired) /\
  has_bucket (Put NewKVStore "p" "" (Some (GBool true))).2 "p" /\
  (Get (Put NewKVStore "p" "" (Some (GBool true))).2 "p" "x" (Some GFunc)).1 <> Panics.
Proof.
  assert (is_open NewKVStore) as Ho by reflexivity.
  assert ("p"%string <> ""%string) as Hn by discriminate.
  repeat (split; [assumption|]).
  split; [vm_compute; reflexivity|].
  exact (Put_makes_bucket NewKVStore "p" "" (GBool true) "x" (Some GFunc) Ho Hn).
Defined.
